(** * The deposit payment-confirmation poller of [staticfiles/core/js/deposit.js]

    A shallow embedding of class [DepositManager] and of the module-level
    timer handle [paymentCheckInterval], run by a model of the browser's
    event loop: interval timers, pending [fetch] promises and the callbacks
    the page registers.  The calls of the page's helpers
    ([utils.showToast], [loadingOverlay]) and of [console.error] are recorded
    as an ordered log of effects. *)

From stdpp Require Import base option list gmap strings fin_maps.
From Stdlib Require Import ZArith.

Module Deposit.

(** ** Constants of the module *)

Definition POLL_INTERVAL : Z := 30000.
Definition MAX_RETRIES : nat := 20.

(** ** Data *)

(** The fields of a [DepositManager] that its methods write.  The elements
    fetched by the constructor ([depositForm], [payment_address], [qr_code])
    are taken to be present in the page; of them the model keeps what
    [handleSuccessfulDeposit] assigns.  Each object is given elements of
    its own: a page makes one [DepositManager], and two of them would
    share the elements that [getElementById] finds. *)
Record DepositManager := mkDepositManager {
  retryCount : nat;
  addressDisplay : string;      (* addressDisplay.textContent *)
  qrCodeDisplay : string;       (* qrCodeDisplay.src *)
  payment_pending : bool        (* form has class payment-pending, controls disabled *)
}.

(** The JSON bodies of [/deposit/create/] and [/deposit/status/<id>/], with
    the properties the code reads.  [message] may be missing. *)
Record Json := mkJson {
  success : bool;
  status : string;
  message : option string;
  payment_id : string;
  payment_address : string;
  qr_code_url : string
}.

(** How the two awaits of a request ([await fetch(..)], then
    [await response.json()]) end: either of them rejects, or the second one
    yields the parsed body. *)
Inductive Settled :=
| Rejected (error : string)
| Resolved (data : Json).

(** What the page can observe of the helpers, in the order of the calls. *)
Inductive Effect :=
| Toast (text type : string)                 (* utils.showToast(text, type) *)
| ConsoleError (label error : string)        (* console.error(label, error) *)
| Redirect (href : string) (delay : Z)       (* setTimeout(() => location.href = href, delay) *)
| OverlayShow                                (* loadingOverlay.show() *)
| OverlayHide.                               (* loadingOverlay.hide() *)

(** An armed interval timer: the closure handed to [setInterval] captures
    [this] and [paymentId]; [delay] is the period. *)
Record Interval := mkInterval {
  iv_this : nat;
  iv_paymentId : string;
  iv_delay : Z
}.

(** The suspended rest of an async function, waiting for its request. *)
Inductive Awaiting :=
| AwaitStatus (this : nat) (paymentId : string)   (* the interval callback *)
| AwaitCreate (this : nat).                       (* createDeposit *)

(** The state of the page. *)
Record Page := mkPage {
  paymentCheckInterval : option nat;   (* [let paymentCheckInterval;], None = undefined *)
  timers : gmap nat Interval;          (* interval timers that are armed *)
  next_timer : nat;                    (* the id the next setInterval returns *)
  fetches : gmap nat Awaiting;         (* requests in flight *)
  next_fetch : nat;
  heap : list DepositManager;          (* the DepositManager objects, by allocation order *)
  effects : list Effect
}.

Definition initial : Page :=
  mkPage None ∅ 1 ∅ 0 [] [].

(** ** A state and exception monad for the method bodies *)

Inductive Completion (A : Type) :=
| Normal (a : A)
| Throw (error : string).
Arguments Normal {A} a.
Arguments Throw {A} error.

Definition Js (A : Type) : Type := Page → Page * Completion A.

Definition ret {A} (a : A) : Js A := λ s, (s, Normal a).
Definition throw {A} (error : string) : Js A := λ s, (s, Throw error).
Definition bind {A B} (m : Js A) (k : A → Js B) : Js B :=
  λ s, match m s with
       | (s1, Normal a) => k a s1
       | (s1, Throw e) => (s1, Throw e)
       end.

#[global] Instance Js_ret : MRet Js := @ret.
#[global] Instance Js_bind : MBind Js := λ A B k m, bind m k.

(** [try { body } catch (error) { handler error }] *)
Definition try_catch {A} (body : Js A) (handler : string → Js A) : Js A :=
  λ s, match body s with
       | (s1, Normal a) => (s1, Normal a)
       | (s1, Throw e) => handler e s1
       end.

(** [try { body } finally { fin }] *)
Definition try_finally {A} (body : Js A) (fin : Js unit) : Js A :=
  λ s, match body s with
       | (s1, c) =>
           match fin s1 with
           | (s2, Normal _) => (s2, c)
           | (s2, Throw e) => (s2, Throw e)
           end
       end.

(** An event handler runs to completion; an exception that escapes it is
    reported by the browser and the state it left stays. *)
Definition exec {A} (m : Js A) (s : Page) : Page := fst (m s).

(** [x || d] on a possibly missing string: undefined and the empty string
    are falsy. *)
Definition or_default (x : option string) (d : string) : string :=
  match x with
  | None => d
  | Some EmptyString => d
  | Some m => m
  end.

(** ** Primitive operations *)

Definition emit (e : Effect) : Js unit :=
  λ s, (mkPage (paymentCheckInterval s) (timers s) (next_timer s) (fetches s)
          (next_fetch s) (heap s) (effects s ++ [e]), Normal tt).

Definition showToast (text type : string) : Js unit := emit (Toast text type).
Definition console_error (label error : string) : Js unit :=
  emit (ConsoleError label error).

(** Reading and assigning the module-level variable. *)
Definition read_paymentCheckInterval : Js (option nat) :=
  λ s, (s, Normal (paymentCheckInterval s)).
Definition write_paymentCheckInterval (t : nat) : Js unit :=
  λ s, (mkPage (Some t) (timers s) (next_timer s) (fetches s)
          (next_fetch s) (heap s) (effects s), Normal tt).

(** [clearInterval(h)]: disarms timer [h]; an undefined handle or the id of
    a timer that is not armed is ignored. *)
Definition disarm (h : option nat) (armed : gmap nat Interval) : gmap nat Interval :=
  match h with
  | Some t => delete t armed
  | None => armed
  end.

Definition clearInterval (h : option nat) : Js unit :=
  λ s, (mkPage (paymentCheckInterval s) (disarm h (timers s)) (next_timer s)
          (fetches s) (next_fetch s) (heap s) (effects s), Normal tt).

(** [setInterval(callback, delay)]: arms a timer under a fresh id and
    returns the id. *)
Definition setInterval (cb : Interval) : Js nat :=
  λ s, let t := next_timer s in
       (mkPage (paymentCheckInterval s) (<[t := cb]> (timers s)) (S t)
          (fetches s) (next_fetch s) (heap s) (effects s), Normal t).

(** [fetch(..)] followed by [await]: the request is in flight and the rest
    of the function is suspended under its id. *)
Definition fetch (k : Awaiting) : Js unit :=
  λ s, let f := next_fetch s in
       (mkPage (paymentCheckInterval s) (timers s) (next_timer s)
          (<[f := k]> (fetches s)) (S f) (heap s) (effects s), Normal tt).

(** The value of the awaits once the request has settled. *)
Definition await (r : Settled) : Js Json :=
  match r with
  | Rejected e => throw e
  | Resolved data => ret data
  end.

(** Field access through [this]. *)
Definition get_this (this : nat) : Js DepositManager :=
  λ s, match heap s !! this with
       | Some m => (s, Normal m)
       | None => (s, Throw "TypeError")
       end.
Definition set_this (this : nat) (m : DepositManager) : Js unit :=
  λ s, (mkPage (paymentCheckInterval s) (timers s) (next_timer s) (fetches s)
          (next_fetch s) (<[this := m]> (heap s)) (effects s), Normal tt).

Definition with_retryCount (n : nat) (m : DepositManager) : DepositManager :=
  mkDepositManager n (addressDisplay m) (qrCodeDisplay m) (payment_pending m).

(** ** The methods of [DepositManager] *)

(** [new DepositManager()] *)
Definition constructor : Js nat :=
  λ s, (mkPage (paymentCheckInterval s) (timers s) (next_timer s) (fetches s)
          (next_fetch s) (heap s ++ [mkDepositManager 0 "" "" false]) (effects s),
        Normal (length (heap s))).

Definition handlePaymentSuccess (this : nat) : Js unit :=
  showToast "Payment received successfully!" "success" ;;
  emit (Redirect "/dashboard/" 2000).

(** The interval callback up to its first await. *)
Definition paymentCheck_call (this : nat) (paymentId : string) : Js unit :=
  fetch (AwaitStatus this paymentId).

(** The interval callback from the awaits on. *)
Definition paymentCheck_resume (this : nat) (r : Settled) : Js unit :=
  try_catch
    (data ← await r;
     (if success data then
        if String.eqb (status data) "completed" then
          handlePaymentSuccess this ;;
          h ← read_paymentCheckInterval;
          clearInterval h
        else ret tt
      else ret tt) ;;
     m ← get_this this;
     set_this this (with_retryCount (S (retryCount m)) m) ;;
     m' ← get_this this;
     if decide (MAX_RETRIES ≤ retryCount m') then
       h ← read_paymentCheckInterval;
       clearInterval h ;;
       showToast "Payment check timed out. Please contact support." "warning"
     else ret tt)
    (λ error, console_error "Failed to check payment status:" error).

Definition startPaymentCheck (this : nat) (paymentId : string) : Js unit :=
  h ← read_paymentCheckInterval;
  clearInterval h ;;
  m ← get_this this;
  set_this this (with_retryCount 0 m) ;;
  t ← setInterval (mkInterval this paymentId POLL_INTERVAL);
  write_paymentCheckInterval t.

Definition handleSuccessfulDeposit (this : nat) (data : Json) : Js unit :=
  m ← get_this this;
  set_this this
    (mkDepositManager (retryCount m) (payment_address data) (qr_code_url data)
       (payment_pending m)) ;;
  showToast "Deposit created successfully" "success" ;;
  startPaymentCheck this (payment_id data) ;;
  m' ← get_this this;
  set_this this
    (mkDepositManager (retryCount m') (addressDisplay m') (qrCodeDisplay m') true).

(** [createDeposit] up to its first await.  The arguments of [fetch], the
    form data and the token of [getCsrfToken()], are taken to evaluate
    without an exception, so that the request is made. *)
Definition createDeposit_call (this : nat) : Js unit :=
  emit OverlayShow ;;
  fetch (AwaitCreate this).

(** [createDeposit] from the awaits on. *)
Definition createDeposit_resume (this : nat) (r : Settled) : Js unit :=
  try_finally
    (try_catch
       (data ← await r;
        if success data then handleSuccessfulDeposit this data
        else throw (or_default (message data) "Failed to create deposit"))
       (λ error,
          console_error "Failed to create deposit:" error ;;
          showToast (or_default (Some error) "Failed to create deposit") "error"))
    (emit OverlayHide).

(** ** The event loop *)

Inductive Event :=
| New                                                  (* new DepositManager() *)
| Submit (this : nat)                                  (* 'submit' on the form of [this] *)
| StartPaymentCheck (this : nat) (paymentId : string)  (* a call of the method *)
| TimerFires (t : nat)                                 (* the period of timer [t] has elapsed *)
| Settles (f : nat) (r : Settled).                     (* request [f] has settled with [r] *)

Definition forget (f : nat) (s : Page) : Page :=
  mkPage (paymentCheckInterval s) (timers s) (next_timer s)
    (delete f (fetches s)) (next_fetch s) (heap s) (effects s).

(** One turn of the event loop.  A timer that is not armed does not fire, a
    request settles once, and a method is called on an object that exists. *)
Definition step (s : Page) (e : Event) : Page :=
  match e with
  | New => exec constructor s
  | Submit this =>
      match heap s !! this with
      | Some _ => exec (createDeposit_call this) s
      | None => s
      end
  | StartPaymentCheck this paymentId =>
      match heap s !! this with
      | Some _ => exec (startPaymentCheck this paymentId) s
      | None => s
      end
  | TimerFires t =>
      match timers s !! t with
      | Some iv => exec (paymentCheck_call (iv_this iv) (iv_paymentId iv)) s
      | None => s
      end
  | Settles f r =>
      match fetches s !! f with
      | Some (AwaitStatus this _) => exec (paymentCheck_resume this r) (forget f s)
      | Some (AwaitCreate this) => exec (createDeposit_resume this r) (forget f s)
      | None => s
      end
  end.

Definition run (s : Page) (es : list Event) : Page := fold_left step es s.

(** A poll tick: timer [t] fires and the request it issues settles with [r]
    before anything else happens. *)
Definition tick (t : nat) (s : Page) (r : Settled) : Page :=
  step (step s (TimerFires t)) (Settles (next_fetch s) r).

Definition poll (t : nat) (s : Page) (rs : list Settled) : Page :=
  fold_left (tick t) rs s.

(** ** Observations *)

(** What [handlePaymentSuccess] does, and what the branch of the callback
    for an exhausted counter shows. *)
Definition onSuccess : list Effect :=
  [Toast "Payment received successfully!" "success"; Redirect "/dashboard/" 2000].
Definition onTimeout : list Effect :=
  [Toast "Payment check timed out. Please contact support." "warning"].

(** The object a suspended function will resume on. *)
Definition awaiting_this (k : Awaiting) : nat :=
  match k with
  | AwaitStatus this _ => this
  | AwaitCreate this => this
  end.

(** A status body that reports the payment as completed, as the callback
    tests it. *)
Definition completed (data : Json) : bool :=
  success data && String.eqb (status data) "completed".

(** The two awaited outcomes the specification names besides failure. *)
Definition Completed (r : Settled) : Prop :=
  ∃ data, r = Resolved data ∧ success data = true ∧ status data = "completed".
Definition Pending (r : Settled) : Prop :=
  ∃ data, r = Resolved data ∧ success data = true ∧ status data = "pending".
Definition Failed (r : Settled) : Prop :=
  ∃ error, r = Rejected error.

(** What the catch block of the callback logs over the ticks [rs], and how
    many of the ticks got as far as the counter. *)
Fixpoint console_log (rs : list Settled) : list Effect :=
  match rs with
  | [] => []
  | Rejected error :: rs' =>
      ConsoleError "Failed to check payment status:" error :: console_log rs'
  | Resolved _ :: rs' => console_log rs'
  end.

Fixpoint counted (rs : list Settled) : nat :=
  match rs with
  | [] => 0
  | Rejected _ :: rs' => counted rs'
  | Resolved _ :: rs' => S (counted rs')
  end.

(** A polling session is active while its timer is armed. *)
Definition active (s : Page) : gset nat := dom (timers s).

(** Why a creation request counts as failed: the promise was rejected, or
    the body says [success: false]; with the error the catch block gets. *)
Definition creation_error (r : Settled) : option string :=
  match r with
  | Rejected error => Some error
  | Resolved data =>
      if success data then None
      else Some (or_default (message data) "Failed to create deposit")
  end.

(** The page with one more request id handed out. *)
Definition bump (s : Page) : Page :=
  mkPage (paymentCheckInterval s) (timers s) (next_timer s) (fetches s)
    (S (next_fetch s)) (heap s) (effects s).

(** Timer [t], armed for object [this], is the one under the handle, and
    the counter of [this] stands at [c]. *)
Record polling (t this c : nat) (s : Page) : Prop := mkPolling {
  polling_handle : paymentCheckInterval s = Some t;
  polling_timer : ∃ paymentId,
      timers s !! t = Some (mkInterval this paymentId POLL_INTERVAL);
  polling_count : retryCount <$> heap s !! this = Some c
}.

(** The pages the event loop can be in keep the armed timers under the
    handle, and ids and object references in range. *)
Record wf (s : Page) : Prop := mkWf {
  wf_armed : ∀ t iv, timers s !! t = Some iv → paymentCheckInterval s = Some t;
  wf_owner : ∀ t iv, timers s !! t = Some iv → iv_this iv < length (heap s);
  wf_handle : ∀ t, paymentCheckInterval s = Some t → t < next_timer s;
  wf_fetches : ∀ f k, fetches s !! f = Some k →
                 f < next_fetch s ∧ awaiting_this k < length (heap s)
}.

(** The page after [startPaymentCheck] was called on [this], the events
    [history] having happened since the page was loaded; and the id of the
    timer that call arms. *)
Definition session (history : list Event) (this : nat) (paymentId : string) : Page :=
  step (run initial history) (StartPaymentCheck this paymentId).
Definition session_timer (history : list Event) : nat :=
  next_timer (run initial history).

(** Sample bodies. *)
Definition created_body : Json :=
  mkJson true "" None "pay-1" "bc1qexampleaddress" "/media/qr/pay-1.png".
Definition pending_body : Json := mkJson true "pending" None "" "" "".
Definition completed_body : Json := mkJson true "completed" None "" "" "".

End Deposit.

(** * The loading overlay of the page *)

Module LoadingOverlay.
Import Deposit.

(** The element [#loading-overlay], when the document has one, with
    whether its class list holds [d-none]. *)
Definition Overlay : Type := option bool.

Definition init (o : Overlay) : Overlay :=
  match o with
  | None => Some true
  | Some d_none => Some d_none
  end.

Definition show (o : Overlay) : Overlay := (λ _, false) <$> o.
Definition hide (o : Overlay) : Overlay := (λ _, true) <$> o.

Definition visible (o : Overlay) : bool :=
  match o with
  | Some d_none => negb d_none
  | None => false
  end.

(** The overlay after the calls recorded in a log of effects. *)
Definition replay (o : Overlay) (log : list Effect) : Overlay :=
  foldl (λ o e, match e with
                | OverlayShow => show o
                | OverlayHide => hide o
                | _ => o
                end) o log.

(** The calls of the three functions a page may make. *)
Inductive Op := Init | Show | Hide.

Definition apply (o : Overlay) (op : Op) : Overlay :=
  match op with
  | Init => init o
  | Show => show o
  | Hide => hide o
  end.

End LoadingOverlay.

(** * What the events do to an object of the page *)

Module DepositForm.
Import Deposit.

(** An object after some events: nothing but its counter has changed, or
    its form has been put in the [payment-pending] state. *)
Definition advance (m m' : DepositManager) : Prop :=
  (addressDisplay m' = addressDisplay m ∧ qrCodeDisplay m' = qrCodeDisplay m ∧
   payment_pending m' = payment_pending m) ∨
  payment_pending m' = true.

(** An address or a QR code is on display only on a form that has been
    put in the [payment-pending] state. *)
Definition shown_locked (s : Page) : Prop :=
  ∀ i m, heap s !! i = Some m →
    addressDisplay m ≠ "" ∨ qrCodeDisplay m ≠ "" → payment_pending m = true.

End DepositForm.

(** * The anti-forgery token of the cookie string *)

Module Cookie.
Import Deposit Stdlib.Strings.Ascii.

(** A string as the list of its code units; the functions below only tell
    code units below 256 apart. *)
Definition str (s : string) : list ascii := String.list_ascii_of_string s.

(** The code units [String.prototype.trim] strips: tab, line feed, vertical
    tab, form feed, carriage return, space and no-break space. *)
Definition is_white_space (c : ascii) : bool :=
  let n := nat_of_ascii c in
  ((9 <=? n) && (n <=? 13)) || (n =? 32) || (n =? 160).

Fixpoint trimStart (s : list ascii) : list ascii :=
  match s with
  | [] => []
  | c :: s' => if is_white_space c then trimStart s' else s
  end.

Definition trim (s : list ascii) : list ascii :=
  reverse (trimStart (reverse (trimStart s))).

(** [s.split(sep)] for a separator of one code unit. *)
Fixpoint split (sep : ascii) (s : list ascii) : list (list ascii) :=
  match s with
  | [] => [[]]
  | c :: s' =>
      if decide (c = sep) then [] :: split sep s'
      else match split sep s' with
           | [] => [[c]]
           | w :: ws => (c :: w) :: ws
           end
  end.

Section GetCsrfToken.

(** [decodeURIComponent], which throws on a malformed escape. *)
Variable decodeURIComponent : list ascii → Completion (list ascii).

(** The [for] loop over the pieces of the cookie string, from piece [i]
    on; it leaves at the first piece that names the token. *)
Fixpoint scan (cookies : list (list ascii)) : Completion (option (list ascii)) :=
  match cookies with
  | [] => Normal None
  | piece :: rest =>
      let cookie := trim piece in
      if decide (take (length (str "csrftoken") + 1) cookie = str "csrftoken=") then
        match decodeURIComponent (drop (length (str "csrftoken") + 1) cookie) with
        | Normal value => Normal (Some value)
        | Throw error => Throw error
        end
      else scan rest
  end.

(** [getCsrfToken()], given the value of [document.cookie]; [None] is
    [null]. *)
Definition getCsrfToken (document_cookie : list ascii) : Completion (option (list ascii)) :=
  match document_cookie with
  | [] => Normal None
  | _ => scan (split ";" document_cookie)
  end.

End GetCsrfToken.

(** The cookie string a browser builds from its cookies: [name=value]
    pairs joined by a semicolon and a space. *)
Definition pair_text (p : list ascii * list ascii) : list ascii :=
  p.1 ++ str "=" ++ p.2.

Fixpoint cookie_string (jar : list (list ascii * list ascii)) : list ascii :=
  match jar with
  | [] => []
  | [p] => pair_text p
  | p :: jar' => pair_text p ++ str "; " ++ cookie_string jar'
  end.

(** A cookie the browser can hold: no semicolon in the name or the value,
    no equals sign in the name, no white space around the pair. *)
Definition well_formed (p : list ascii * list ascii) : Prop :=
  Forall (λ c, c ≠ ";"%char ∧ c ≠ "="%char) p.1 ∧
  Forall (λ c, c ≠ ";"%char) p.2 ∧
  (∀ c, head p.1 = Some c → is_white_space c = false) ∧
  (∀ c, last p.2 = Some c → is_white_space c = false).

(** The value of the first cookie of the jar with the given name. *)
Fixpoint first_named (name : list ascii) (jar : list (list ascii * list ascii))
  : option (list ascii) :=
  match jar with
  | [] => None
  | p :: jar' => if decide (p.1 = name) then Some p.2 else first_named name jar'
  end.

End Cookie.

(** * Form validation *)

Module Forms.
Import Deposit Stdlib.Strings.Ascii.

(** An element that follows a control under its parent: whether its class
    list holds [error-message], and its text. *)
Record Element := mkElement {
  error_message : bool;
  textContent : string
}.

(** An [input], [select] or [textarea] of a form, with the element
    siblings that follow it.  The controls of a form are taken to lie
    under parents of their own, so that these lists do not overlap. *)
Record Control := mkControl {
  required : bool;                 (* hasAttribute('required') *)
  value : list ascii;
  error : bool;                    (* classList.contains('error') *)
  data_error : option string;      (* getAttribute('data-error') *)
  following : list Element
}.

Definition showError (input : Control) : Control :=
  let errorMessage := or_default (data_error input) "This field is required" in
  mkControl (required input) (value input) true (data_error input)
    (match following input with
     | errorElement :: rest =>
         if error_message errorElement
         then mkElement true errorMessage :: rest
         else mkElement true errorMessage :: errorElement :: rest
     | [] => [mkElement true errorMessage]
     end).

Definition clearError (input : Control) : Control :=
  mkControl (required input) (value input) false (data_error input)
    (match following input with
     | errorElement :: rest =>
         if error_message errorElement then rest else errorElement :: rest
     | [] => []
     end).

(** The test of the loop body: the control is required and its value is
    empty once trimmed. *)
Definition blank (input : Control) : bool :=
  required input && bool_decide (Cookie.trim (value input) = []).

(** [validate(form)]: the controls after the loop, and [isValid]. *)
Definition validate (form : list Control) : list Control * bool :=
  foldl (λ '(inputs, isValid) input,
           if blank input then (inputs ++ [showError input], false)
           else (inputs ++ [input], isValid))
        ([], true) form.

(** ** [handleSubmit] *)

Record Button := mkButton {
  disabled : bool;
  label : string                   (* textContent *)
}.

(** The form with its submit button, when it has one, and the log of the
    calls of the helpers. *)
Record FormPage := mkFormPage {
  controls : list Control;
  submitBtn : option Button;       (* form.querySelector('[type="submit"]') *)
  log : list Effect
}.

Section HandleSubmit.

(** The parsed body is handed to the caller's function as it is. *)
Variable Data : Type.

Inductive Answer :=
| Rejected (error : string)
| Resolved (data : Data).

(** The functions of the caller: they may do to the page what they like,
    and may throw. *)
Definition Callback : Type := FormPage → FormPage * Completion unit.

Record Options := mkOptions {
  onSuccess : option (Data → Callback);
  onError : option (string → Callback)
}.

Definition call (f : option Callback) : Callback :=
  match f with
  | Some f => f
  | None => λ p, (p, Normal tt)
  end.

Definition note (e : Effect) (p : FormPage) : FormPage :=
  mkFormPage (controls p) (submitBtn p) (log p ++ [e]).

(** [handleSubmit] up to its await: the page, and, when the request is
    made, what the rest of the function keeps of the button: [None] when
    the form has none, else its text. *)
Definition handleSubmit_call (p : FormPage) : FormPage * option (option string) :=
  let '(controls', isValid) := validate (controls p) in
  if isValid then
    (mkFormPage controls'
       ((λ _, mkButton true "Processing...") <$> submitBtn p)
       (log p ++ [OverlayShow]),
     Some (label <$> submitBtn p))
  else (mkFormPage controls' (submitBtn p) (log p), None).

(** The [finally] block. *)
Definition restore (originalText : option string) (p : FormPage) : FormPage :=
  let p := note OverlayHide p in
  match originalText, submitBtn p with
  | Some text, Some _ => mkFormPage (controls p) (Some (mkButton false text)) (log p)
  | _, _ => p
  end.

(** [handleSubmit] from the awaits on. *)
Definition handleSubmit_resume (originalText : option string) (options : Options)
    (r : Answer) (p : FormPage) : FormPage * Completion unit :=
  let '(p1, c1) :=
    match r with
    | Rejected error => (p, Throw error)
    | Resolved data => call ((λ f, f data) <$> onSuccess options) p
    end in
  let '(p2, c2) :=
    match c1 with
    | Normal _ => (p1, Normal tt)
    | Throw error =>
        call ((λ f, f error) <$> onError options)
          (note (ConsoleError "Form submission error:" error) p1)
    end in
  (restore originalText p2, c2).

End HandleSubmit.

End Forms.

(** * The estimate of the deposit form *)

Module Estimate.
Import Deposit.

(** The body of [/crypto/estimate/], with the properties the code reads. *)
Record Body := mkBody {
  success : bool;
  estimate : string;
  message : option string
}.

Inductive Answer :=
| Rejected (error : string)
| Resolved (data : Body).

(** The two inputs, the display, and the log of the calls of the helpers. *)
Record Form := mkForm {
  amountInput : string;            (* amountInput.value *)
  currencySelect : string;         (* currencySelect.value *)
  estimateDisplay : string;        (* estimateDisplay.textContent *)
  log : list Effect
}.

Section UpdateEstimate.

(** [utils.formatCrypto], a formatting of floating-point numbers. *)
Variable formatCrypto : string → string.

(** [updateEstimate] up to its await: the form, and the URL of the request
    when one is made. *)
Definition updateEstimate_call (f : Form) : Form * option string :=
  match amountInput f, currencySelect f with
  | EmptyString, _ => (f, None)
  | _, EmptyString => (f, None)
  | amount, currency =>
      (mkForm amount currency (estimateDisplay f) (log f ++ [OverlayShow]),
       Some ("/crypto/estimate/?amount=" +:+ amount +:+ "&currency=" +:+ currency))
  end.

(** [updateEstimate] from the awaits on. *)
Definition updateEstimate_resume (f : Form) (r : Answer) : Form :=
  let failed (error : string) (f : Form) : Form :=
    mkForm (amountInput f) (currencySelect f) (estimateDisplay f)
      (log f ++ [ConsoleError "Failed to update estimate:" error;
                 Toast (or_default (Some error) "Failed to update estimate") "error";
                 OverlayHide]) in
  match r with
  | Rejected error => failed error f
  | Resolved data =>
      if success data then
        mkForm (amountInput f) (currencySelect f) (formatCrypto (estimate data))
          (log f ++ [OverlayHide])
      else failed (or_default (message data) "Failed to get estimate") f
  end.

End UpdateEstimate.

(** The last of the answers that is a body saying [success]. *)
Fixpoint last_success (rs : list Answer) : option Body :=
  match rs with
  | [] => None
  | r :: rs' =>
      match last_success rs' with
      | Some data => Some data
      | None =>
          match r with
          | Resolved data => if success data then Some data else None
          | Rejected _ => None
          end
      end
  end.

Definition failure (r : Answer) : bool :=
  match r with
  | Rejected _ => true
  | Resolved data => negb (success data)
  end.

End Estimate.

(** * The navigation menu and the theme of [site.js] *)

Module Site.
Import Deposit.

(** The state a [UIManager] reads and writes.  An element the constructor
    did not find is [None]; of one it found the model keeps the part the
    methods touch. *)
Record UIManager := mkUIManager {
  navbar : option bool;           (* classList.contains('scrolled') *)
  mobileMenuBtn : option bool;    (* classList.contains('active') *)
  navLinks : option string;       (* style.display *)
  navButtons : option string;     (* style.display *)
  isMenuOpen : bool;
  body_overflow : string          (* document.body.style.overflow *)
}.

(** Where a click lands: which of the three elements contain the target. *)
Record Target := mkTarget {
  in_mobileMenuBtn : bool;
  in_navLinks : bool;
  in_navButtons : bool
}.

(** [el?.contains(event.target)], undefined counting as false. *)
Definition contains {A} (el : option A) (inside : bool) : bool :=
  match el with
  | Some _ => inside
  | None => false
  end.

Definition onScroll (scrollY : Z) (ui : UIManager) : UIManager :=
  match navbar ui with
  | None => ui
  | Some _ =>
      mkUIManager (Some (bool_decide (10 < scrollY)%Z)) (mobileMenuBtn ui)
        (navLinks ui) (navButtons ui) (isMenuOpen ui) (body_overflow ui)
  end.

Definition toggleMobileMenu (ui : UIManager) : UIManager :=
  match navLinks ui, navButtons ui with
  | Some _, Some _ =>
      let open := negb (isMenuOpen ui) in
      let display := if open then "flex" else "none" in
      mkUIManager (navbar ui) (negb <$> mobileMenuBtn ui)
        (Some display) (Some display) open
        (if open then "hidden" else "")
  | _, _ => ui
  end.

Definition handleClickOutside (target : Target) (ui : UIManager) : UIManager :=
  if isMenuOpen ui
     && negb (contains (mobileMenuBtn ui) (in_mobileMenuBtn target))
     && negb (contains (navLinks ui) (in_navLinks target))
     && negb (contains (navButtons ui) (in_navButtons target))
  then toggleMobileMenu ui
  else ui.

(** What the listeners of [setupEventListeners] do with an event.  The
    click listeners are registered only when the button exists; a click on
    the button stops at the button, any other click reaches the
    document. *)
Inductive UIEvent :=
| Scroll (scrollY : Z)
| Click (target : Target).

Definition dispatch (ui : UIManager) (e : UIEvent) : UIManager :=
  match e with
  | Scroll scrollY => onScroll scrollY ui
  | Click target =>
      match mobileMenuBtn ui with
      | None => ui
      | Some _ =>
          if in_mobileMenuBtn target then toggleMobileMenu ui
          else handleClickOutside target ui
      end
  end.

(** The manager as its constructor leaves it, on a page with the given
    elements. *)
Definition UIManager_new (navbar : option bool) (btn : option bool)
    (links buttons : option string) (overflow : string) : UIManager :=
  mkUIManager navbar btn links buttons false overflow.

(** What holds of a manager after any events, on a page that had the
    button [btn], the panels [links] and [buttons] and the body overflow
    [overflow] when the manager was made. *)
Definition menu_inv (btn : option bool) (links buttons : option string)
    (overflow : string) (ui : UIManager) : Prop :=
  mobileMenuBtn ui = xorb (isMenuOpen ui) <$> btn ∧
  (is_Some (navLinks ui) ↔ is_Some links) ∧
  (is_Some (navButtons ui) ↔ is_Some buttons) ∧
  if isMenuOpen ui then
    navLinks ui = Some "flex" ∧ navButtons ui = Some "flex" ∧
    body_overflow ui = "hidden" ∧ is_Some btn
  else
    (navLinks ui = links ∧ navButtons ui = buttons ∧ body_overflow ui = overflow) ∨
    (navLinks ui = Some "none" ∧ navButtons ui = Some "none" ∧ body_overflow ui = "").

(** ** The theme *)

(** The page a [ThemeManager] works on: the stored theme, the
    [data-theme] attribute of the document element, class [dark-mode] of
    the body, whether the page has a [#themeToggle], and the manager's own
    field. *)
Record ThemePage := mkThemePage {
  stored_theme : option string;     (* localStorage.getItem('theme') *)
  data_theme : option string;
  dark_mode : bool;
  themeToggle : bool;
  theme : string
}.

Definition applyTheme (p : ThemePage) : ThemePage :=
  mkThemePage (stored_theme p) (Some (theme p))
    (bool_decide (theme p = "dark")) (themeToggle p) (theme p).

(** The page load: [new ThemeManager()] and [init()]. *)
Definition load (stored : option string) (data : option string) (dark toggle : bool)
  : ThemePage :=
  applyTheme (mkThemePage stored data dark toggle (or_default stored "light")).

(** A click on [#themeToggle]; without the element no listener was
    registered. *)
Definition click (p : ThemePage) : ThemePage :=
  if themeToggle p then
    let theme' := if bool_decide (theme p = "light") then "dark" else "light" in
    applyTheme (mkThemePage (Some theme') (data_theme p) (dark_mode p)
                  (themeToggle p) theme')
  else p.

(** What holds of the page of a manager after a load and any clicks. *)
Definition theme_inv (p : ThemePage) : Prop :=
  theme p = or_default (stored_theme p) "light" ∧
  data_theme p = Some (theme p) ∧
  dark_mode p = bool_decide (theme p = "dark").

End Site.

(** * A polling session on any schedule *)

Module Polling.
Import Deposit.






End Polling.

Import Deposit.

(** * Equations of the methods *)

Ltac js_unfold :=
  unfold exec, createDeposit_call, createDeposit_resume,
    handleSuccessfulDeposit, startPaymentCheck, paymentCheck_call,
    paymentCheck_resume, handlePaymentSuccess, constructor, try_catch, try_finally, await,
    showToast, console_error, emit, fetch, setInterval, clearInterval,
    read_paymentCheckInterval, write_paymentCheckInterval, get_this, set_this,
    throw, mbind, mret, Js_bind, Js_ret, bind, ret in *.

Section Methods.
Implicit Types (s : Page) (m : DepositManager) (this t f : nat).

Lemma heap_insert_lookup s this m m' :
  heap s !! this = Some m → <[this := m']> (heap s) !! this = Some m'.
Proof. intros H. apply list_lookup_insert_eq. by eapply lookup_lt_Some. Qed.

Lemma disarm_lookup h (armed : gmap nat Interval) t iv :
  disarm h armed !! t = Some iv → armed !! t = Some iv ∧ h ≠ Some t.
Proof.
  destruct h as [t'|]; simpl; [|done].
  rewrite lookup_delete. case_decide; [done|]. intros ->. split; congruence.
Qed.

Lemma disarm_idemp h (armed : gmap nat Interval) :
  disarm h (disarm h armed) = disarm h armed.
Proof.
  destruct h as [t|]; simpl; [|done].
  apply map_eq. intros i. rewrite !lookup_delete. by case_decide.
Qed.

Lemma startPaymentCheck_eq this paymentId s m :
  heap s !! this = Some m →
  exec (startPaymentCheck this paymentId) s =
    mkPage (Some (next_timer s))
      (<[next_timer s := mkInterval this paymentId POLL_INTERVAL]>
         (disarm (paymentCheckInterval s) (timers s)))
      (S (next_timer s)) (fetches s) (next_fetch s)
      (<[this := with_retryCount 0 m]> (heap s)) (effects s).
Proof. intros H. js_unfold. simpl. rewrite H. reflexivity. Qed.

Lemma paymentCheck_rejected this error s :
  exec (paymentCheck_resume this (Rejected error)) s =
    mkPage (paymentCheckInterval s) (timers s) (next_timer s) (fetches s)
      (next_fetch s) (heap s)
      (effects s ++ [ConsoleError "Failed to check payment status:" error]).
Proof. reflexivity. Qed.

(** A body arrived: the counter is incremented whatever it says, and the
    timer under the handle is cleared when the body reports completion or
    the counter has reached [MAX_RETRIES]. *)
Lemma paymentCheck_resolved this data s m :
  heap s !! this = Some m →
  let c := S (retryCount m) in
  let out := bool_decide (MAX_RETRIES ≤ c) in
  exec (paymentCheck_resume this (Resolved data)) s =
    mkPage (paymentCheckInterval s)
      (if completed data || out
       then disarm (paymentCheckInterval s) (timers s) else timers s)
      (next_timer s) (fetches s) (next_fetch s)
      (<[this := with_retryCount c m]> (heap s))
      (effects s ++ (if completed data then onSuccess else [])
                 ++ (if out then onTimeout else [])).
Proof.
  intros H c out. subst c out. js_unfold. unfold completed. simpl.
  destruct (success data), (String.eqb (status data) "completed"); simpl;
    rewrite H; simpl; rewrite (heap_insert_lookup _ _ _ _ H); simpl;
    case_decide; rewrite ?bool_decide_true, ?bool_decide_false by done;
    simpl; rewrite ?disarm_idemp, <- ?app_assoc, ?app_nil_r; reflexivity.
Qed.

Lemma createDeposit_created this data s m :
  heap s !! this = Some m →
  success data = true →
  exec (createDeposit_resume this (Resolved data)) s =
    mkPage (Some (next_timer s))
      (<[next_timer s := mkInterval this (payment_id data) POLL_INTERVAL]>
         (disarm (paymentCheckInterval s) (timers s)))
      (S (next_timer s)) (fetches s) (next_fetch s)
      (<[this := mkDepositManager 0 (payment_address data) (qr_code_url data) true]>
         (heap s))
      (effects s ++ [Toast "Deposit created successfully" "success"; OverlayHide]).
Proof.
  intros H Hok. js_unfold. simpl. rewrite Hok, H. simpl.
  rewrite (heap_insert_lookup _ _ _ _ H). simpl.
  rewrite list_lookup_insert_eq
    by (rewrite length_insert; by eapply lookup_lt_Some).
  simpl. rewrite !list_insert_insert_eq, <- app_assoc. reflexivity.
Qed.

Lemma createDeposit_failed this r s error :
  creation_error r = Some error →
  exec (createDeposit_resume this r) s =
    mkPage (paymentCheckInterval s) (timers s) (next_timer s) (fetches s)
      (next_fetch s) (heap s)
      (effects s ++ [ConsoleError "Failed to create deposit:" error;
                     Toast (or_default (Some error) "Failed to create deposit") "error";
                     OverlayHide]).
Proof.
  intros H. destruct r as [e|data]; simpl in H.
  - injection H as ->. js_unfold. simpl. by rewrite <- !app_assoc.
  - destruct (success data) eqn:Hs; [done|]. injection H as <-.
    js_unfold. simpl. rewrite Hs. simpl. by rewrite <- !app_assoc.
Qed.

End Methods.

(** * The invariant of the event loop *)

Section Invariant.
Implicit Types (s : Page) (this t f : nat).

Lemma wf_initial : wf initial.
Proof. split; simpl; intros *; by rewrite ?lookup_empty. Qed.

Lemma wf_disarm s : wf s → disarm (paymentCheckInterval s) (timers s) = ∅.
Proof.
  intros W. apply map_empty. intros t.
  destruct (disarm _ _ !! t) as [iv|] eqn:E; [|done].
  apply disarm_lookup in E as [E Hne]. by apply (wf_armed _ W) in E.
Qed.

Lemma wf_arm s this paymentId heap' effects' :
  wf s → this < length (heap s) → length heap' = length (heap s) →
  wf (mkPage (Some (next_timer s))
        (<[next_timer s := mkInterval this paymentId POLL_INTERVAL]>
           (disarm (paymentCheckInterval s) (timers s)))
        (S (next_timer s)) (fetches s) (next_fetch s) heap' effects').
Proof.
  intros W Hthis Hlen. rewrite (wf_disarm _ W).
  split; simpl.
  - intros t iv. rewrite lookup_insert. case_decide; [congruence|].
    by rewrite lookup_empty.
  - intros t iv. rewrite lookup_insert. case_decide.
    + intros [= <-]. simpl. lia.
    + by rewrite lookup_empty.
  - intros t [= <-]. lia.
  - intros f k Hf. rewrite Hlen. by apply (wf_fetches _ W).
Qed.

Lemma wf_forget s f : wf s → wf (forget f s).
Proof.
  intros [Wa Wo Wh Wf]. split; simpl; try done.
  intros f' k. rewrite lookup_delete. case_decide; [done|]. apply Wf.
Qed.

Lemma wf_fetch s k :
  wf s → awaiting_this k < length (heap s) → wf (exec (fetch k) s).
Proof.
  intros [Wa Wo Wh Wf] Hk. split; simpl; try done.
  intros f k'. rewrite lookup_insert. case_decide.
  - intros [= <-]. split; [lia|done].
  - intros H'. apply Wf in H' as [??]. split; [lia|done].
Qed.

Lemma wf_effects s effects' :
  wf s →
  wf (mkPage (paymentCheckInterval s) (timers s) (next_timer s) (fetches s)
        (next_fetch s) (heap s) effects').
Proof. intros [Wa Wo Wh Wf]. by split. Qed.

Lemma wf_paymentCheck_resume s this r :
  wf s → this < length (heap s) → wf (exec (paymentCheck_resume this r) s).
Proof.
  intros W Hthis. destruct r as [error|data].
  - rewrite paymentCheck_rejected. by apply wf_effects.
  - destruct (lookup_lt_is_Some_2 _ _ Hthis) as [m Hm].
    rewrite (paymentCheck_resolved _ data _ _ Hm).
    destruct W as [Wa Wo Wh Wf]. split; simpl.
    + intros t iv. destruct (_ || _); [|apply Wa].
      intros E. apply disarm_lookup in E as [E _]. by eapply Wa.
    + intros t iv. rewrite length_insert. destruct (_ || _); [|apply Wo].
      intros E. apply disarm_lookup in E as [E _]. by eapply Wo.
    + done.
    + intros f k. rewrite length_insert. apply Wf.
Qed.

Lemma wf_createDeposit_resume s this r :
  wf s → this < length (heap s) → wf (exec (createDeposit_resume this r) s).
Proof.
  intros W Hthis. destruct (creation_error r) as [error|] eqn:E.
  - rewrite (createDeposit_failed _ _ _ _ E). by apply wf_effects.
  - destruct r as [e|data]; [done|]. simpl in E.
    destruct (success data) eqn:Hs; [|done].
    destruct (lookup_lt_is_Some_2 _ _ Hthis) as [m Hm].
    rewrite (createDeposit_created _ _ _ _ Hm Hs).
    apply wf_arm; [done..|]. by rewrite length_insert.
Qed.

Lemma wf_step s e : wf s → wf (step s e).
Proof.
  intros W. destruct e as [|this|this paymentId|t|f r]; simpl.
  - destruct W as [Wa Wo Wh Wf].
    split; simpl; try done; intros *; rewrite length_app; simpl.
    + intros E. apply Wo in E. lia.
    + intros E. apply Wf in E as [??]. split; lia.
  - destruct (heap s !! this) as [m|] eqn:Hm; [|done].
    apply lookup_lt_Some in Hm.
    apply (wf_fetch _ (AwaitCreate this)); [|done].
    by apply wf_effects.
  - destruct (heap s !! this) as [m|] eqn:Hm; [|done].
    rewrite (startPaymentCheck_eq _ _ _ _ Hm).
    apply wf_arm; [done| by eapply lookup_lt_Some | by rewrite length_insert].
  - destruct (timers s !! t) as [iv|] eqn:Ht; [|done].
    apply (wf_fetch _ (AwaitStatus _ _)); [done|]. by eapply wf_owner.
  - destruct (fetches s !! f) as [[this pid|this]|] eqn:Hf; [| |done].
    + apply wf_paymentCheck_resume; [by apply wf_forget|].
      by apply (wf_fetches _ W) in Hf as [_ ?].
    + apply wf_createDeposit_resume; [by apply wf_forget|].
      by apply (wf_fetches _ W) in Hf as [_ ?].
Qed.

Lemma wf_run es : ∀ s, wf s → wf (run s es).
Proof.
  induction es as [|e es IH]; intros s W; simpl; [done|].
  apply IH. by apply wf_step.
Qed.

Lemma wf_history es : wf (run initial es).
Proof. apply wf_run, wf_initial. Qed.

End Invariant.

(** * Poll ticks *)

Section Ticks.
Implicit Types (s : Page) (this t c : nat) (r : Settled) (rs : list Settled).

Lemma Completed_completed r :
  Completed r ↔ ∃ data, r = Resolved data ∧ completed data = true.
Proof.
  unfold Completed, completed. split; intros (data & -> & H); exists data.
  - destruct H as [-> ->]. done.
  - split; [done|]. apply andb_true_iff in H as [H1 H2].
    by apply String.eqb_eq in H2.
Qed.

Lemma wf_fresh_fetch s : wf s → fetches s !! next_fetch s = None.
Proof.
  intros W. destruct (fetches s !! next_fetch s) as [k|] eqn:E; [|done].
  apply (wf_fetches _ W) in E as [? _]. lia.
Qed.

(** A tick on an armed timer is the callback run on the body that
    arrives; the request it made is gone again. *)
Lemma tick_armed s t iv r :
  wf s → timers s !! t = Some iv →
  tick t s r = exec (paymentCheck_resume (iv_this iv) r) (bump s).
Proof.
  intros W Ht. unfold tick. simpl. rewrite Ht.
  unfold paymentCheck_call, fetch, exec at 2. simpl.
  rewrite lookup_insert_eq. unfold forget. simpl.
  rewrite delete_insert_id by by apply wf_fresh_fetch. reflexivity.
Qed.

(** A timer that is not armed does not tick. *)
Lemma tick_idle s t r : wf s → timers s !! t = None → tick t s r = s.
Proof.
  intros W Ht. unfold tick. simpl. rewrite Ht. by rewrite wf_fresh_fetch.
Qed.

Lemma poll_idle rs : ∀ s t, wf s → timers s !! t = None → poll t s rs = s.
Proof.
  induction rs as [|r rs IH]; intros s t W Ht; simpl; [done|].
  rewrite tick_idle by done. by apply IH.
Qed.

Lemma wf_tick s t r : wf s → wf (tick t s r).
Proof. intros W. unfold tick. by do 2 apply wf_step. Qed.

Lemma wf_poll rs : ∀ s t, wf s → wf (poll t s rs).
Proof.
  induction rs as [|r rs IH]; intros s t W; simpl; [done|].
  apply IH. by apply wf_tick.
Qed.

(** The tick ends in the catch block: only the log grows. *)
Lemma tick_rejected s t this c error :
  wf s → polling t this c s →
  polling t this c (tick t s (Rejected error)) ∧
  effects (tick t s (Rejected error)) =
    effects s ++ [ConsoleError "Failed to check payment status:" error].
Proof.
  intros W [Hh [pid Ht] Hc]. rewrite (tick_armed _ _ _ _ W Ht).
  rewrite paymentCheck_rejected. simpl. split; [|done].
  split; simpl; eauto.
Qed.

(** A body arrived on a polling session. *)
Lemma tick_resolved s t this c data :
  wf s → polling t this c s →
  let s' := tick t s (Resolved data) in
  retryCount <$> heap s' !! this = Some (S c) ∧
  paymentCheckInterval s' = Some t ∧
  effects s' = effects s ++ (if completed data then onSuccess else [])
                         ++ (if bool_decide (MAX_RETRIES ≤ S c) then onTimeout else []) ∧
  (if completed data || bool_decide (MAX_RETRIES ≤ S c)
   then timers s' = ∅ else polling t this (S c) s').
Proof.
  intros W [Hh [pid Ht] Hc] s'. subst s'.
  rewrite (tick_armed _ _ _ _ W Ht). simpl.
  destruct (heap s !! this) as [m|] eqn:Hm; [|done].
  injection Hc as Hc. subst c.
  rewrite (paymentCheck_resolved this data (bump s) m Hm). simpl.
  rewrite (heap_insert_lookup _ _ _ _ Hm). simpl.
  split_and!; try done.
  destruct (completed data || _).
  - by apply wf_disarm.
  - split; simpl; eauto. by rewrite (heap_insert_lookup _ _ _ _ Hm).
Qed.

(** Ticks that bring no completed body keep the session polling as long
    as the counter stays below [MAX_RETRIES]: rejected ticks are logged,
    the others are counted. *)
Lemma poll_uncompleted rs : ∀ s t this c,
  wf s → polling t this c s →
  Forall (λ r, ¬ Completed r) rs →
  c + counted rs < MAX_RETRIES →
  polling t this (c + counted rs) (poll t s rs) ∧
  effects (poll t s rs) = effects s ++ console_log rs.
Proof.
  induction rs as [|r rs IH]; intros s t this c W P Hrs Hc; simpl in *.
  - rewrite Nat.add_0_r, app_nil_r. done.
  - apply Forall_cons in Hrs as [Hr Hrs]. destruct r as [error|data].
    + destruct (tick_rejected s t this c error W P) as [P' E'].
      destruct (IH _ t this c (wf_tick _ t _ W) P' Hrs Hc) as [P'' E''].
      split; [done|]. rewrite E'', E'. by rewrite <- app_assoc.
    + pose proof (tick_resolved s t this c data W P) as (_ & _ & E' & P').
      assert (completed data = false) as Hd.
      { destruct (completed data) eqn:Hd; [|done].
        destruct Hr. apply Completed_completed. eauto. }
      rewrite Hd in *. rewrite bool_decide_false in * by lia. simpl in *.
      rewrite app_nil_r in E'.
      destruct (IH _ t this (S c) (wf_tick _ t _ W) P' Hrs) as [P'' E''];
        [lia|].
      rewrite <- Nat.add_succ_comm. split; [done|]. by rewrite E'', E'.
Qed.

(** A session as [startPaymentCheck] leaves it. *)
Lemma startPaymentCheck_polling s this paymentId :
  wf s → this < length (heap s) →
  let s' := step s (StartPaymentCheck this paymentId) in
  wf s' ∧ polling (next_timer s) this 0 s' ∧
  timers s' = {[ next_timer s := mkInterval this paymentId POLL_INTERVAL ]} ∧
  effects s' = effects s.
Proof.
  intros W Hthis s'. split; [by apply wf_step|]. subst s'. simpl.
  destruct (lookup_lt_is_Some_2 _ _ Hthis) as [m Hm]. rewrite Hm.
  rewrite (startPaymentCheck_eq _ _ _ _ Hm), (wf_disarm _ W). simpl.
  split_and!; try done.
  split; simpl; [done|..].
  - exists paymentId. by rewrite lookup_insert_eq.
  - by rewrite (heap_insert_lookup _ _ _ _ Hm).
Qed.

End Ticks.

Section Sessions.
Implicit Types (s : Page) (this t c : nat) (r : Settled) (rs : list Settled).

Lemma poll_app s t rs1 rs2 :
  poll t s (rs1 ++ rs2) = poll t (poll t s rs1) rs2.
Proof. apply fold_left_app. Qed.

(** The tick that ends a session: after uncompleted ticks [pre], a body
    arrives that is completed or takes the counter to [MAX_RETRIES].  The
    timer is cleared, and the ticks [post] do not happen. *)
Lemma poll_ends s t this pre data post :
  wf s → polling t this 0 s →
  Forall (λ r, ¬ Completed r) pre →
  counted pre < MAX_RETRIES →
  completed data || bool_decide (MAX_RETRIES ≤ S (counted pre)) = true →
  let s' := poll t s (pre ++ Resolved data :: post) in
  timers s' = ∅ ∧
  retryCount <$> heap s' !! this = Some (S (counted pre)) ∧
  effects s' = effects s ++ console_log pre
                 ++ (if completed data then onSuccess else [])
                 ++ (if bool_decide (MAX_RETRIES ≤ S (counted pre))
                     then onTimeout else []).
Proof.
  intros W P Hpre Hc Hend s'. subst s'.
  destruct (poll_uncompleted pre s t this 0 W P Hpre Hc) as [P1 E1].
  pose proof (wf_poll pre s t W) as W1.
  rewrite poll_app. simpl. simpl in P1.
  pose proof (tick_resolved _ t this _ data W1 P1) as (Hn & _ & E2 & T2).
  rewrite Hend in T2.
  rewrite poll_idle; [|by apply wf_tick|by rewrite T2, lookup_empty].
  split_and!; [done..|]. rewrite E2, E1. by rewrite <- !app_assoc.
Qed.

Lemma counted_resolved rs :
  Forall (λ r, ∃ data, r = Resolved data) rs → counted rs = length rs.
Proof. induction 1 as [|r rs [data ->] _ IH]; simpl; [done|]. by rewrite IH. Qed.

Lemma counted_failed rs : Forall Failed rs → counted rs = 0.
Proof. induction 1 as [|r rs [error ->] _ IH]; simpl; done. Qed.

Lemma counted_le rs : counted rs ≤ length rs.
Proof. induction rs as [|[?|?] rs IH]; simpl; lia. Qed.

Lemma console_log_resolved rs :
  Forall (λ r, ∃ data, r = Resolved data) rs → console_log rs = [].
Proof. induction 1 as [|r rs [data ->] _ IH]; simpl; done. Qed.

Lemma Pending_resolved r : Pending r → ∃ data, r = Resolved data.
Proof. intros (data & -> & _). eauto. Qed.

Lemma Pending_uncompleted r : Pending r → ¬ Completed r.
Proof.
  intros (data & -> & _ & Hp) (data' & [= <-] & _ & Hc). congruence.
Qed.

Lemma Failed_uncompleted r : Failed r → ¬ Completed r.
Proof. intros [error ->] (data & [=] & _). Qed.

Lemma wf_at_most_one s : wf s → size (active s) ≤ 1.
Proof.
  intros W. unfold active. rewrite size_dom.
  pose proof (wf_disarm _ W) as E.
  destruct (paymentCheckInterval s) as [t|]; simpl in E.
  - apply (f_equal size) in E. rewrite map_size_delete, map_size_empty in E.
    destruct (timers s !! t); simpl in E; lia.
  - rewrite E, map_size_empty. lia.
Qed.

Lemma session_polling history this paymentId :
  this < length (heap (run initial history)) →
  let s := session history this paymentId in
  wf s ∧ polling (session_timer history) this 0 s ∧
  timers s = {[ session_timer history := mkInterval this paymentId POLL_INTERVAL ]} ∧
  effects s = effects (run initial history).
Proof. intros H. apply startPaymentCheck_polling; [apply wf_history|done]. Qed.

End Sessions.

(** * The polling session *)


(** Ticks in lock step: when the first completed body arrives on tick
    [k < MAX_RETRIES] (the ticks [pre] before it were rejected or brought
    other bodies), the success toast and the redirect are issued, no
    timeout toast is, no timer is armed any more, and the page stays as it
    is whatever ticks [post] would have followed and whichever timer is
    asked to fire. *)
Lemma completed_before_MAX_RETRIES_succeeds history this paymentId pre r post :
  this < length (heap (run initial history)) →
  Forall (λ r, ¬ Completed r) pre →
  Completed r →
  S (length pre) < MAX_RETRIES →
  let t := session_timer history in
  let s := session history this paymentId in
  let s' := poll t s (pre ++ [r]) in
  effects s' = effects s ++ console_log pre ++ onSuccess ∧
  active s' = ∅ ∧
  poll t s (pre ++ r :: post) = s' ∧
  (∀ t', step s' (TimerFires t') = s').
Proof.
  intros Hthis Hpre Hr Hk t s s'.
  destruct (session_polling history this paymentId Hthis) as (W & P & _ & _).
  fold s t in W, P.
  apply Completed_completed in Hr as (data & -> & Hd).
  pose proof (counted_le pre) as Hle.
  destruct (poll_ends s t this pre data [] W P Hpre) as (T & _ & E);
    [lia|by rewrite Hd|].
  fold s' in T, E. rewrite Hd, bool_decide_false, app_nil_r in E by lia.
  split_and!.
  - done.
  - unfold active. by rewrite T, dom_empty_L.
  - rewrite (cons_middle (Resolved data) pre post), app_assoc, poll_app.
    apply poll_idle; [by apply wf_poll|]. fold s'. by rewrite T, lookup_empty.
  - intros t'. simpl. by rewrite T, lookup_empty.
Qed.

(** C9. A session whose ticks [1 .. MAX_RETRIES - 1] are all rejected and
    whose tick [MAX_RETRIES] brings a completed body succeeds on that tick:
    the rejections are only logged, the success toast and the redirect are
    issued, and the timer is cleared. *)
Theorem transient_failures_do_not_block_success history this paymentId rs r :
  this < length (heap (run initial history)) →
  Forall Failed rs →
  length rs = MAX_RETRIES - 1 →
  Completed r →
  let t := session_timer history in
  let s := session history this paymentId in
  let s' := poll t s (rs ++ [r]) in
  effects s' = effects s ++ console_log rs ++ onSuccess ∧
  active s' = ∅.
Proof.
  intros Hthis Hrs _ Hr t s s'.
  destruct (session_polling history this paymentId Hthis) as (W & P & _ & _).
  fold s t in W, P.
  apply Completed_completed in Hr as (data & -> & Hd).
  pose proof (counted_failed rs Hrs) as H0.
  destruct (poll_ends s t this rs data [] W P) as (T & _ & E).
  - eapply Forall_impl; [exact Hrs|apply Failed_uncompleted].
  - rewrite H0. unfold MAX_RETRIES. lia.
  - by rewrite Hd.
  - fold s' in T, E. rewrite Hd, H0, bool_decide_false, app_nil_r in E
      by (unfold MAX_RETRIES; lia).
    split; [done|]. unfold active. by rewrite T, dom_empty_L.
Qed.

Lemma transient_failures_do_not_block_success_witness :
  let rs := replicate 19 (Rejected "Failed to fetch") in
  0 < length (heap (run initial [New])) ∧
  Forall Failed rs ∧
  length rs = MAX_RETRIES - 1 ∧
  Completed (Resolved completed_body) ∧
  active (poll 1 (session [New] 0 "pay-1") (rs ++ [Resolved completed_body])) = ∅.
Proof.
  intros rs.
  assert (0 < length (heap (run initial [New]))) as H1 by (simpl; lia).
  assert (Forall Failed rs) as H2 by (apply Forall_replicate; by eexists).
  assert (length rs = MAX_RETRIES - 1) as H3 by reflexivity.
  assert (Completed (Resolved completed_body)) as H4 by (by exists completed_body).
  split_and!; [done..|].
  apply (transient_failures_do_not_block_success [New] 0 "pay-1" rs _ H1 H2 H3 H4).
Defined.

(** C1 (what the code does where the claim asks for a counted tick). A
    tick whose request is rejected ends in the catch block before
    [this.retryCount++]: however many such ticks follow one another, the
    counter stays at 0, the timer stays armed and the timeout toast is
    never shown; only [console.error] is called. *)
Theorem rejected_ticks_are_not_counted history this paymentId rs :
  this < length (heap (run initial history)) →
  Forall Failed rs →
  let t := session_timer history in
  let s := session history this paymentId in
  let s' := poll t s rs in
  retryCount <$> heap s' !! this = Some 0 ∧
  t ∈ active s' ∧
  effects s' = effects s ++ console_log rs.
Proof.
  intros Hthis Hrs t s s'.
  destruct (session_polling history this paymentId Hthis) as (W & P & _ & _).
  fold s t in W, P.
  pose proof (counted_failed rs Hrs) as H0.
  destruct (poll_uncompleted rs s t this 0 W P) as [[_ [pid Ht] Hc] E].
  - eapply Forall_impl; [exact Hrs|apply Failed_uncompleted].
  - rewrite H0. unfold MAX_RETRIES. lia.
  - rewrite H0 in Hc. split_and!; [done| |done].
    unfold active. apply elem_of_dom. eauto.
Qed.

Lemma rejected_ticks_are_not_counted_witness :
  let rs := replicate 25 (Rejected "Failed to fetch") in
  0 < length (heap (run initial [New])) ∧
  Forall Failed rs ∧
  1 ∈ active (poll 1 (session [New] 0 "pay-1") rs).
Proof.
  intros rs.
  assert (0 < length (heap (run initial [New]))) as H1 by (simpl; lia).
  assert (Forall Failed rs) as H2 by (apply Forall_replicate; by eexists).
  split_and!; [done..|].
  apply (rejected_ticks_are_not_counted [New] 0 "pay-1" rs H1 H2).
Defined.

(** C2 (what the code does in the scenario of the claim). The timer is
    armed with a period of 30000 ms and [MAX_RETRIES] is 20.  After
    [MAX_RETRIES - 1] pending ticks, the tick that brings the completed
    body calls [handlePaymentSuccess] and then goes on to the counter,
    which reaches [MAX_RETRIES]: the same tick also shows the timeout
    toast. *)
Theorem completed_on_last_tick_also_times_out history this paymentId pre r :
  this < length (heap (run initial history)) →
  Forall Pending pre →
  length pre = MAX_RETRIES - 1 →
  Completed r →
  let t := session_timer history in
  let s := session history this paymentId in
  let s' := poll t s (pre ++ [r]) in
  MAX_RETRIES = 20 ∧
  timers s !! t = Some (mkInterval this paymentId 30000) ∧
  effects s' = effects s ++ onSuccess ++ onTimeout ∧
  active s' = ∅.
Proof.
  intros Hthis Hpre Hlen Hr t s s'.
  destruct (session_polling history this paymentId Hthis) as (W & P & T0 & _).
  fold s t in W, P, T0.
  apply Completed_completed in Hr as (data & -> & Hd).
  assert (counted pre = MAX_RETRIES - 1) as Hn.
  { rewrite <- Hlen. apply counted_resolved.
    eapply Forall_impl; [exact Hpre|apply Pending_resolved]. }
  destruct (poll_ends s t this pre data [] W P) as (T & _ & E).
  - eapply Forall_impl; [exact Hpre|apply Pending_uncompleted].
  - rewrite Hn. unfold MAX_RETRIES. lia.
  - by rewrite Hd.
  - fold s' in T, E. rewrite Hd, Hn in E.
    rewrite console_log_resolved in E
      by (eapply Forall_impl; [exact Hpre|apply Pending_resolved]).
    split_and!; [done| |done|].
    + by rewrite T0, lookup_singleton_eq.
    + unfold active. by rewrite T, dom_empty_L.
Qed.

Lemma completed_on_last_tick_also_times_out_witness :
  let pre := replicate 19 (Resolved pending_body) in
  0 < length (heap (run initial [New])) ∧
  Forall Pending pre ∧
  length pre = MAX_RETRIES - 1 ∧
  Completed (Resolved completed_body) ∧
  effects (poll 1 (session [New] 0 "pay-1") (pre ++ [Resolved completed_body])) =
    onSuccess ++ onTimeout.
Proof.
  intros pre.
  assert (0 < length (heap (run initial [New]))) as H1 by (simpl; lia).
  assert (Forall Pending pre) as H2
    by (apply Forall_replicate; by exists pending_body).
  assert (length pre = MAX_RETRIES - 1) as H3 by reflexivity.
  assert (Completed (Resolved completed_body)) as H4 by (by exists completed_body).
  split_and!; [done..|].
  apply (completed_on_last_tick_also_times_out [New] 0 "pay-1" pre _ H1 H2 H3 H4).
Defined.

(** * One timer for the page *)

(** C3. Whatever events have happened, at most one polling timer is armed;
    and a call of [startPaymentCheck] disarms the timer that was armed,
    arms one new timer for the payment and leaves the counter of the
    object at 0. *)
Theorem at_most_one_session_active history :
  let s := run initial history in
  size (active s) ≤ 1 ∧
  ∀ this paymentId, this < length (heap s) →
    let s' := step s (StartPaymentCheck this paymentId) in
    (∀ t, t ∈ active s → t ∉ active s') ∧
    active s' = {[ next_timer s ]} ∧
    timers s' !! next_timer s = Some (mkInterval this paymentId POLL_INTERVAL) ∧
    paymentCheckInterval s' = Some (next_timer s) ∧
    retryCount <$> heap s' !! this = Some 0.
Proof.
  intros s. pose proof (wf_history history) as W. fold s in W.
  split; [by apply wf_at_most_one|].
  intros this paymentId Hthis s'.
  destruct (startPaymentCheck_polling s this paymentId W Hthis)
    as (_ & [Hh _ Hc] & T & _).
  fold s' in Hh, Hc, T.
  assert (active s' = {[ next_timer s ]}) as A
    by (unfold active; by rewrite T, dom_singleton_L).
  split_and!; try done.
  - intros t Ht. rewrite A. unfold active in Ht.
    apply elem_of_dom in Ht as [iv Ht].
    apply (wf_armed _ W) in Ht. apply (wf_handle _ W) in Ht.
    rewrite elem_of_singleton. lia.
  - by rewrite T, lookup_singleton_eq.
Qed.

Lemma at_most_one_session_active_witness :
  let s := run initial [New; StartPaymentCheck 0 "pay-1"; TimerFires 1] in
  0 < length (heap s) ∧
  active (step s (StartPaymentCheck 0 "pay-2")) = {[ 2 ]}.
Proof.
  intros s.
  assert (0 < length (heap s)) as H1 by (vm_compute; lia).
  split; [done|].
  destruct (at_most_one_session_active
              [New; StartPaymentCheck 0 "pay-1"; TimerFires 1]) as [_ H].
  apply (H 0 "pay-2" H1).
Defined.

(** C10. The handle is one variable of the module, not a field of the
    object: the armed timers of the page are at most one whichever objects
    they were armed for; [startPaymentCheck] on an object disarms the timer
    armed for any other object; and on the first call, with the handle
    still undefined, [clearInterval] disarms nothing and the call arms its
    timer. *)
Theorem timer_handle_is_shared_by_all_instances history :
  let s := run initial history in
  (∀ t1 t2 iv1 iv2,
     timers s !! t1 = Some iv1 → timers s !! t2 = Some iv2 → t1 = t2) ∧
  (∀ a b t iv paymentId,
     timers s !! t = Some iv → iv_this iv = a → b < length (heap s) →
     let s' := step s (StartPaymentCheck b paymentId) in
     timers s' !! t = None ∧
     timers s' = {[ next_timer s := mkInterval b paymentId POLL_INTERVAL ]}) ∧
  (∀ this paymentId,
     paymentCheckInterval s = None → this < length (heap s) →
     let s' := step s (StartPaymentCheck this paymentId) in
     timers (exec (clearInterval (paymentCheckInterval s)) s) = timers s ∧
     timers s' = {[ next_timer s := mkInterval this paymentId POLL_INTERVAL ]} ∧
     paymentCheckInterval s' = Some (next_timer s)).
Proof.
  intros s. pose proof (wf_history history) as W. fold s in W.
  split_and!.
  - intros t1 t2 iv1 iv2 H1 H2.
    apply (wf_armed _ W) in H1, H2. congruence.
  - intros a b t iv paymentId Ht _ Hb s'.
    destruct (startPaymentCheck_polling s b paymentId W Hb) as (_ & _ & T & _).
    fold s' in T. split; [|done].
    rewrite T. apply lookup_singleton_ne.
    apply (wf_armed _ W) in Ht. apply (wf_handle _ W) in Ht. lia.
  - intros this paymentId Hnone Hthis s'.
    destruct (startPaymentCheck_polling s this paymentId W Hthis)
      as (_ & [Hh _ _] & T & _).
    split_and!; [|done..]. by rewrite Hnone.
Qed.

Lemma timer_handle_is_shared_by_all_instances_witness :
  let s := run initial [New; New; StartPaymentCheck 0 "pay-1"] in
  timers s !! 1 = Some (mkInterval 0 "pay-1" POLL_INTERVAL) ∧
  1 < length (heap s) ∧
  timers (step s (StartPaymentCheck 1 "pay-2")) !! 1 = None ∧
  paymentCheckInterval (run initial [New]) = None ∧
  0 < length (heap (run initial [New])) ∧
  paymentCheckInterval (step (run initial [New]) (StartPaymentCheck 0 "pay-1")) = Some 1.
Proof.
  intros s.
  assert (timers s !! 1 = Some (mkInterval 0 "pay-1" POLL_INTERVAL)) as H1
    by (vm_compute; reflexivity).
  assert (1 < length (heap s)) as H2 by (vm_compute; lia).
  assert (paymentCheckInterval (run initial [New]) = None) as H3 by reflexivity.
  assert (0 < length (heap (run initial [New]))) as H4 by (simpl; lia).
  split_and!; [done|done| |done|done|].
  - destruct (timer_handle_is_shared_by_all_instances
                [New; New; StartPaymentCheck 0 "pay-1"]) as (_ & H & _).
    apply (H 0 1 1 _ "pay-2" H1 eq_refl H2).
  - destruct (timer_handle_is_shared_by_all_instances [New]) as (_ & _ & H).
    apply (H 0 "pay-1" H3 H4).
Defined.

(** * Responses of superseded sessions *)

Section Supersession.
Implicit Types (s : Page) (this t f : nat) (e : Event).

(** A step arms no timer but, possibly, the one with the next id. *)
Lemma step_timers s e t iv :
  wf s → timers (step s e) !! t = Some iv →
  timers s !! t = Some iv ∨ t = next_timer s.
Proof.
  intros W. destruct e as [|this|this paymentId|t'|f r]; simpl.
  - auto.
  - destruct (heap s !! this); auto.
  - destruct (heap s !! this) as [m|] eqn:Hm; [|auto].
    rewrite (startPaymentCheck_eq _ _ _ _ Hm). simpl.
    rewrite lookup_insert. case_decide; [auto|].
    intros E. apply disarm_lookup in E as [E _]. auto.
  - destruct (timers s !! t'); auto.
  - destruct (fetches s !! f) as [[this pid|this]|] eqn:Hf; [| |auto];
      apply (wf_fetches _ W) in Hf as [_ Hthis];
      destruct (lookup_lt_is_Some_2 _ _ Hthis) as [m Hm].
    + destruct r as [error|data].
      * rewrite paymentCheck_rejected. auto.
      * rewrite (paymentCheck_resolved this data (forget f s) m Hm). simpl.
        destruct (_ || _); [|auto].
        intros E. apply disarm_lookup in E as [E _]. auto.
    + destruct (creation_error r) as [error|] eqn:E.
      * rewrite (createDeposit_failed _ _ _ _ E). auto.
      * destruct r as [error|data]; [done|]. simpl in E.
        destruct (success data) eqn:Hs; [|done].
        rewrite (createDeposit_created this data (forget f s) m Hm Hs). simpl.
        rewrite lookup_insert. case_decide; [auto|].
        intros E'. apply disarm_lookup in E' as [E' _]. auto.
Qed.

Lemma step_next_timer s e : wf s → next_timer s ≤ next_timer (step s e).
Proof.
  intros W. destruct e as [|this|this paymentId|t'|f r]; simpl.
  - done.
  - by destruct (heap s !! this).
  - destruct (heap s !! this) as [m|] eqn:Hm; [|done].
    rewrite (startPaymentCheck_eq _ _ _ _ Hm). simpl. lia.
  - by destruct (timers s !! t').
  - destruct (fetches s !! f) as [[this pid|this]|] eqn:Hf; [| |done];
      apply (wf_fetches _ W) in Hf as [_ Hthis];
      destruct (lookup_lt_is_Some_2 _ _ Hthis) as [m Hm].
    + destruct r as [error|data].
      * by rewrite paymentCheck_rejected.
      * by rewrite (paymentCheck_resolved this data (forget f s) m Hm).
    + destruct (creation_error r) as [error|] eqn:E.
      * by rewrite (createDeposit_failed _ _ _ _ E).
      * destruct r as [error|data]; [done|]. simpl in E.
        destruct (success data) eqn:Hs; [|done].
        rewrite (createDeposit_created this data (forget f s) m Hm Hs).
        simpl. lia.
Qed.

(** A timer id that has been handed out and is not armed stays unarmed. *)
Lemma retired_timer_stays_retired es : ∀ s t,
  wf s → t < next_timer s → timers s !! t = None →
  timers (run s es) !! t = None.
Proof.
  induction es as [|e es IH]; intros s t W Hlt Hnone; simpl; [done|].
  apply IH.
  - by apply wf_step.
  - pose proof (step_next_timer s e W). lia.
  - destruct (timers (step s e) !! t) as [iv|] eqn:E; [|done].
    apply (step_timers _ _ _ _ W) in E as [E| ->]; [congruence|lia].
Qed.

(** The callback resumed on a body, for whichever request it was. *)
Lemma settle_status s f this paymentId data m :
  wf s → fetches s !! f = Some (AwaitStatus this paymentId) →
  heap s !! this = Some m →
  let s' := step s (Settles f (Resolved data)) in
  let out := bool_decide (MAX_RETRIES ≤ S (retryCount m)) in
  heap s' !! this = Some (with_retryCount (S (retryCount m)) m) ∧
  effects s' = effects s ++ (if completed data then onSuccess else [])
                         ++ (if out then onTimeout else []) ∧
  timers s' = (if completed data || out then ∅ else timers s).
Proof.
  intros W Hf Hm s' out. subst s' out. simpl. rewrite Hf.
  rewrite (paymentCheck_resolved this data (forget f s) m Hm). simpl.
  rewrite (heap_insert_lookup _ _ _ _ Hm). split_and!; [done..|].
  destruct (_ || _); [|done]. by apply wf_disarm.
Qed.

End Supersession.

(** C6, as stated, fails: session [pay-1] has a request in flight when
    [startPaymentCheck] replaces it by session [pay-2] (timer 1 disarmed,
    timer 2 under the handle).  The completed body that then arrives for
    the request of [pay-1] calls [handlePaymentSuccess] and clears timer 2,
    the timer of the new session. *)
Lemma stale_completed_response_is_acted_on :
  let s := run initial [New; StartPaymentCheck 0 "pay-1"; TimerFires 1;
                        StartPaymentCheck 0 "pay-2"] in
  let s' := step s (Settles 0 (Resolved completed_body)) in
  fetches s !! 0 = Some (AwaitStatus 0 "pay-1") ∧
  timers s !! 1 = None ∧
  timers s !! 2 = Some (mkInterval 0 "pay-2" POLL_INTERVAL) ∧
  effects s = [] ∧
  effects s' = onSuccess ∧
  timers s' !! 2 = None.
Proof. vm_compute. repeat split. Qed.

(** C6, amended. A call of [startPaymentCheck] disarms the timers armed
    before it for good: no later event arms them again, so a superseded
    session issues no further request.  The requests it has in flight stay
    in flight, and the callback has no notion of the session it belongs to:
    when any status request of the page settles with a body, the counter of
    its object goes up by one, a completed body calls
    [handlePaymentSuccess], a counter at [MAX_RETRIES] shows the timeout
    toast, and either of the two clears the timer under the handle,
    whichever session armed it. *)
Theorem superseded_session_is_disarmed_but_its_responses_count history :
  let s0 := run initial history in
  (∀ this paymentId t later,
     this < length (heap s0) → t ∈ active s0 →
     let s := step s0 (StartPaymentCheck this paymentId) in
     (∀ f k, fetches s0 !! f = Some k → fetches s !! f = Some k) ∧
     t ∉ active (run s later)) ∧
  (∀ f this paymentId data m,
     fetches s0 !! f = Some (AwaitStatus this paymentId) →
     heap s0 !! this = Some m →
     let s' := step s0 (Settles f (Resolved data)) in
     let out := bool_decide (MAX_RETRIES ≤ S (retryCount m)) in
     retryCount <$> heap s' !! this = Some (S (retryCount m)) ∧
     effects s' = effects s0 ++ (if completed data then onSuccess else [])
                             ++ (if out then onTimeout else []) ∧
     (completed data || out = true → active s' = ∅)).
Proof.
  intros s0. pose proof (wf_history history) as W. fold s0 in W. split.
  - intros this paymentId t later Hthis Ht s.
    destruct (startPaymentCheck_polling s0 this paymentId W Hthis)
      as (W' & _ & T & _).
    fold s in W', T. split.
    + intros f k Hf. subst s. simpl.
      destruct (lookup_lt_is_Some_2 _ _ Hthis) as [m Hm]. rewrite Hm.
      by rewrite (startPaymentCheck_eq _ _ _ _ Hm).
    + unfold active in *. apply elem_of_dom in Ht as [iv Ht].
      apply (wf_armed _ W) in Ht. apply (wf_handle _ W) in Ht.
      apply not_elem_of_dom. apply retired_timer_stays_retired; [done|..].
      * pose proof (step_next_timer s0 (StartPaymentCheck this paymentId) W).
        fold s in H. lia.
      * rewrite T. apply lookup_singleton_ne. lia.
  - intros f this paymentId data m Hf Hm s' out.
    destruct (settle_status s0 f this paymentId data m W Hf Hm) as (H1 & H2 & H3).
    fold s' out in H1, H2, H3. split_and!.
    + by rewrite H1.
    + done.
    + intros Hstop. unfold active. by rewrite H3, Hstop, dom_empty_L.
Qed.

Lemma superseded_session_is_disarmed_but_its_responses_count_witness :
  let s0 := run initial [New; StartPaymentCheck 0 "pay-1"; TimerFires 1] in
  let s := step s0 (StartPaymentCheck 0 "pay-2") in
  0 < length (heap s0) ∧ 1 ∈ active s0 ∧
  (1 ∉ active (run s [TimerFires 1; Settles 0 (Resolved pending_body)])) ∧
  fetches s !! 0 = Some (AwaitStatus 0 "pay-1") ∧
  (∃ m, heap s !! 0 = Some m ∧
        retryCount <$> heap (step s (Settles 0 (Resolved pending_body))) !! 0 =
          Some (S (retryCount m))).
Proof.
  intros s0 s.
  assert (0 < length (heap s0)) as H1 by (vm_compute; lia).
  assert (1 ∈ active s0) as H2 by (apply elem_of_dom; vm_compute; eauto).
  assert (fetches s !! 0 = Some (AwaitStatus 0 "pay-1")) as H3
    by (vm_compute; reflexivity).
  split_and!; [done|done| |done|].
  - destruct (superseded_session_is_disarmed_but_its_responses_count
                [New; StartPaymentCheck 0 "pay-1"; TimerFires 1]) as [H _].
    apply (H 0 "pay-2" 1 _ H1 H2).
  - eexists. split; [vm_compute; reflexivity|].
    destruct (superseded_session_is_disarmed_but_its_responses_count
                [New; StartPaymentCheck 0 "pay-1"; TimerFires 1;
                 StartPaymentCheck 0 "pay-2"]) as [_ H].
    refine (proj1 (H 0 0 "pay-1" pending_body _ H3 _)).
    vm_compute; reflexivity.
Defined.

(** * Creating the deposit *)

(** C7, as stated, fails: the form is submitted twice before the first
    answer is back.  The first request creates the deposit and starts the
    session of [pay-1]; the second is rejected, the error toast is shown,
    and the session the first one started is still active. *)
Lemma failed_submit_leaves_running_session_active :
  let s := run initial [New; Submit 0; Submit 0; Settles 0 (Resolved created_body)] in
  let s' := step s (Settles 1 (Rejected "Failed to fetch")) in
  fetches s !! 1 = Some (AwaitCreate 0) ∧
  creation_error (Rejected "Failed to fetch") = Some "Failed to fetch" ∧
  effects s' = effects s ++ [ConsoleError "Failed to create deposit:" "Failed to fetch";
                             Toast "Failed to fetch" "error"; OverlayHide] ∧
  timers s' !! 1 = Some (mkInterval 0 "pay-1" POLL_INTERVAL) ∧
  active s' ≠ ∅.
Proof.
  intros s s'.
  assert (timers s' !! 1 = Some (mkInterval 0 "pay-1" POLL_INTERVAL)) as H
    by (vm_compute; reflexivity).
  split_and!; [vm_compute; reflexivity..|done|].
  intros E. apply (elem_of_dom_2 (D := gset nat)) in H.
  unfold active in E. rewrite E in H. set_solver.
Qed.

(** C7, amended. When a creation request of [this] settles with a body
    that says [success], the address and the QR code of the body are put on
    the page, the success toast is shown and one polling session, for the
    payment id of the body, is started.  When it settles by a rejection or
    with a body that says otherwise, the error toast is shown and the
    handle, the armed timers and the objects are left as they were: the
    failed submit starts no session, and it cancels none either. *)
Theorem createDeposit_starts_polling_only_on_success history f this r :
  let s := run initial history in
  fetches s !! f = Some (AwaitCreate this) →
  let s' := step s (Settles f r) in
  match creation_error r with
  | None =>
      ∃ data, r = Resolved data ∧
        heap s' !! this =
          Some (mkDepositManager 0 (payment_address data) (qr_code_url data) true) ∧
        effects s' =
          effects s ++ [Toast "Deposit created successfully" "success"; OverlayHide] ∧
        timers s' = {[ next_timer s := mkInterval this (payment_id data) POLL_INTERVAL ]} ∧
        paymentCheckInterval s' = Some (next_timer s)
  | Some error =>
      effects s' =
        effects s ++ [ConsoleError "Failed to create deposit:" error;
                      Toast (or_default (Some error) "Failed to create deposit") "error";
                      OverlayHide] ∧
      timers s' = timers s ∧
      paymentCheckInterval s' = paymentCheckInterval s ∧
      heap s' = heap s
  end.
Proof.
  intros s Hf s'. pose proof (wf_history history) as W. fold s in W.
  subst s'. simpl. rewrite Hf.
  destruct (creation_error r) as [error|] eqn:E.
  - by rewrite (createDeposit_failed _ _ _ _ E).
  - destruct r as [error|data]; [done|]. simpl in E.
    destruct (success data) eqn:Hs; [|done].
    apply (wf_fetches _ W) in Hf as [_ Hthis]. simpl in Hthis.
    destruct (lookup_lt_is_Some_2 _ _ Hthis) as [m Hm].
    rewrite (createDeposit_created this data (forget f s) m Hm Hs). simpl.
    exists data. rewrite (heap_insert_lookup _ _ _ _ Hm), (wf_disarm _ W).
    by rewrite insert_empty.
Qed.

Lemma createDeposit_starts_polling_only_on_success_witness :
  let s := run initial [New; Submit 0] in
  fetches s !! 0 = Some (AwaitCreate 0) ∧
  timers (step s (Settles 0 (Resolved created_body))) =
    {[ 1 := mkInterval 0 "pay-1" POLL_INTERVAL ]} ∧
  timers (step s (Settles 0 (Rejected "Failed to fetch"))) = timers s.
Proof.
  intros s.
  assert (fetches s !! 0 = Some (AwaitCreate 0)) as H by (vm_compute; reflexivity).
  split_and!; [done|..].
  - destruct (createDeposit_starts_polling_only_on_success
                [New; Submit 0] 0 0 (Resolved created_body) H)
      as (data & [= <-] & _ & _ & T & _).
    exact T.
  - apply (createDeposit_starts_polling_only_on_success
             [New; Submit 0] 0 0 (Rejected "Failed to fetch") H).
Defined.

(** * Requests in flight *)

(** C8, as stated, fails: the timer of a session fires a second time
    while the request of its first firing has not settled, and the session
    has two status requests in flight. *)
Lemma status_requests_of_one_session_overlap :
  let s := run initial [New; StartPaymentCheck 0 "pay-1"; TimerFires 1; TimerFires 1] in
  fetches s !! 0 = Some (AwaitStatus 0 "pay-1") ∧
  fetches s !! 1 = Some (AwaitStatus 0 "pay-1") ∧
  size (fetches s) = 2.
Proof. vm_compute. repeat split. Qed.

(** C8, amended. Every firing of an armed timer issues a new status
    request, whatever requests are still in flight: [setInterval] does not
    wait for the callback it started.  The requests of a session follow
    one another without overlap when each of them settles before the timer
    fires again: over such ticks the requests in flight are the same after
    every tick. *)
Theorem every_firing_issues_a_request history t iv :
  let s := run initial history in
  timers s !! t = Some iv →
  let s' := step s (TimerFires t) in
  fetches s' = <[ next_fetch s := AwaitStatus (iv_this iv) (iv_paymentId iv) ]> (fetches s) ∧
  size (fetches s') = S (size (fetches s)) ∧
  ∀ rs, fetches (poll t s rs) = fetches s.
Proof.
  intros s Ht s'. pose proof (wf_history history) as W. fold s in W.
  assert (fetches s' =
            <[ next_fetch s := AwaitStatus (iv_this iv) (iv_paymentId iv) ]> (fetches s))
    as E by (subst s'; simpl; by rewrite Ht).
  split_and!; [done| |].
  - rewrite E. apply map_size_insert_None. by apply wf_fresh_fetch.
  - clear s' E Ht iv. intros rs. revert W. generalize s. clear s.
    induction rs as [|r rs IH]; intros s W; simpl; [done|].
    rewrite IH by by apply wf_tick.
    destruct (timers s !! t) as [iv|] eqn:Ht; [|by rewrite tick_idle].
    rewrite (tick_armed _ _ _ _ W Ht).
    pose proof (wf_owner _ W _ _ Ht) as Hthis.
    destruct (lookup_lt_is_Some_2 _ _ Hthis) as [m Hm].
    destruct r as [error|data].
    + by rewrite paymentCheck_rejected.
    + by rewrite (paymentCheck_resolved _ data (bump s) m Hm).
Qed.

Lemma every_firing_issues_a_request_witness :
  let s := run initial [New; StartPaymentCheck 0 "pay-1"; TimerFires 1] in
  timers s !! 1 = Some (mkInterval 0 "pay-1" POLL_INTERVAL) ∧
  size (fetches (step s (TimerFires 1))) = S (size (fetches s)).
Proof.
  intros s.
  assert (timers s !! 1 = Some (mkInterval 0 "pay-1" POLL_INTERVAL)) as H
    by (vm_compute; reflexivity).
  split; [done|].
  apply (every_firing_issues_a_request
           [New; StartPaymentCheck 0 "pay-1"; TimerFires 1] 1 _ H).
Defined.

(** * Further properties of the deposit page *)

Section DepositPage.
Implicit Types (s : Page) (this t f : nat) (e : Event).

Lemma replay_app o log1 log2 :
  LoadingOverlay.replay o (log1 ++ log2) =
  LoadingOverlay.replay (LoadingOverlay.replay o log1) log2.
Proof. apply foldl_app. Qed.

Lemma hide_not_visible o : LoadingOverlay.visible (LoadingOverlay.hide o) = false.
Proof. by destruct o. Qed.

(** What a settled creation request appends to the log ends with the call
    of [loadingOverlay.hide]. *)
Lemma settle_create_log s f this r :
  wf s → fetches s !! f = Some (AwaitCreate this) →
  ∃ log, effects (step s (Settles f r)) = effects s ++ log ++ [OverlayHide].
Proof.
  intros W Hf. simpl. rewrite Hf.
  destruct (creation_error r) as [error|] eqn:E.
  - rewrite (createDeposit_failed _ _ _ _ E). simpl.
    by exists [ConsoleError "Failed to create deposit:" error;
               Toast (or_default (Some error) "Failed to create deposit") "error"].
  - destruct r as [error|data]; [done|]. simpl in E.
    destruct (success data) eqn:Hs; [|done].
    apply (wf_fetches _ W) in Hf as [_ Hthis]. simpl in Hthis.
    destruct (lookup_lt_is_Some_2 _ _ Hthis) as [m Hm].
    rewrite (createDeposit_created this data (forget f s) m Hm Hs). simpl.
    by exists [Toast "Deposit created successfully" "success"].
Qed.

Lemma advance_refl m : DepositForm.advance m m.
Proof. by left. Qed.

Lemma advance_retryCount c m : DepositForm.advance m (with_retryCount c m).
Proof. by left. Qed.

Lemma insert_advance s this i m m0 m' :
  heap s !! this = Some m0 → heap s !! i = Some m →
  DepositForm.advance m0 m' →
  ∃ m'', <[this := m']> (heap s) !! i = Some m'' ∧ DepositForm.advance m m''.
Proof.
  intros H0 Hi A. destruct (decide (this = i)) as [->|Hne].
  - rewrite (heap_insert_lookup _ _ _ _ Hi). exists m'. split; [done|]. congruence.
  - rewrite list_lookup_insert_ne by done. exists m. split; [done|apply advance_refl].
Qed.

(** No event removes an object, and every event leaves it as it was up to
    its counter, or with its form locked. *)
Lemma step_heap s e i m :
  wf s → heap s !! i = Some m →
  ∃ m', heap (step s e) !! i = Some m' ∧ DepositForm.advance m m'.
Proof.
  intros W Hi.
  assert (∃ m', heap s !! i = Some m' ∧ DepositForm.advance m m') as Hsame
    by (exists m; split; [done|apply advance_refl]).
  destruct e as [|this|this paymentId|t'|f r]; simpl.
  - exists m. split; [by apply lookup_app_l_Some|apply advance_refl].
  - by destruct (heap s !! this).
  - destruct (heap s !! this) as [m0|] eqn:Hm; [|done].
    rewrite (startPaymentCheck_eq _ _ _ _ Hm). simpl.
    eapply insert_advance; [done..|apply advance_retryCount].
  - by destruct (timers s !! t').
  - destruct (fetches s !! f) as [[this pid|this]|] eqn:Hf; [| |done];
      apply (wf_fetches _ W) in Hf as [_ Hthis];
      destruct (lookup_lt_is_Some_2 _ _ Hthis) as [m0 Hm].
    + destruct r as [error|data].
      * by rewrite paymentCheck_rejected.
      * rewrite (paymentCheck_resolved this data (forget f s) m0 Hm). simpl.
        eapply insert_advance; [done..|apply advance_retryCount].
    + destruct (creation_error r) as [error|] eqn:E.
      * by rewrite (createDeposit_failed _ _ _ _ E).
      * destruct r as [error|data]; [done|]. simpl in E.
        destruct (success data) eqn:Hs; [|done].
        rewrite (createDeposit_created this data (forget f s) m0 Hm Hs). simpl.
        eapply insert_advance; [done..|by right].
Qed.

(** An object that an event adds is as the constructor makes it. *)
Lemma step_heap_new s e i m' :
  wf s → heap s !! i = None → heap (step s e) !! i = Some m' →
  m' = mkDepositManager 0 "" "" false.
Proof.
  intros W Hi.
  assert (∀ this (x : DepositManager), <[this := x]> (heap s) !! i = Some m' → False)
    as Hins.
  { intros this x H. apply lookup_lt_Some in H. rewrite length_insert in H.
    apply lookup_ge_None in Hi. lia. }
  destruct e as [|this|this paymentId|t'|f r]; simpl.
  - intros H. apply lookup_ge_None in Hi.
    rewrite lookup_app_r in H by done.
    destruct (i - length (heap s)) as [|n]; simpl in H; [congruence|done].
  - destruct (heap s !! this); simpl; congruence.
  - destruct (heap s !! this) as [m0|] eqn:Hm; [|congruence].
    rewrite (startPaymentCheck_eq _ _ _ _ Hm). simpl. intros H. by destruct (Hins _ _ H).
  - destruct (timers s !! t'); simpl; congruence.
  - destruct (fetches s !! f) as [[this pid|this]|] eqn:Hf; [| |congruence];
      apply (wf_fetches _ W) in Hf as [_ Hthis];
      destruct (lookup_lt_is_Some_2 _ _ Hthis) as [m0 Hm].
    + destruct r as [error|data].
      * rewrite paymentCheck_rejected. simpl. congruence.
      * rewrite (paymentCheck_resolved this data (forget f s) m0 Hm). simpl.
        intros H. by destruct (Hins _ _ H).
    + destruct (creation_error r) as [error|] eqn:E.
      * rewrite (createDeposit_failed _ _ _ _ E). simpl. congruence.
      * destruct r as [error|data]; [done|]. simpl in E.
        destruct (success data) eqn:Hs; [|done].
        rewrite (createDeposit_created this data (forget f s) m0 Hm Hs). simpl.
        intros H. by destruct (Hins _ _ H).
Qed.

Lemma run_locked es : ∀ s i m,
  wf s → heap s !! i = Some m → payment_pending m = true →
  ∃ m', heap (run s es) !! i = Some m' ∧ payment_pending m' = true.
Proof.
  induction es as [|e es IH]; intros s i m W Hi Hp; simpl; [eauto|].
  destruct (step_heap s e i m W Hi) as (m' & Hi' & A).
  apply (IH _ i m'); [by apply wf_step|done|].
  destruct A as [(_ & _ & ->)|]; done.
Qed.

Lemma shown_locked_step s e :
  wf s → DepositForm.shown_locked s → DepositForm.shown_locked (step s e).
Proof.
  intros W I i m' Hi' Hshown.
  destruct (heap s !! i) as [m|] eqn:Hi.
  - destruct (step_heap s e i m W Hi) as (m'' & Hi'' & A).
    rewrite Hi' in Hi''. injection Hi'' as <-.
    destruct A as [(Ha & Hq & Hp)|]; [|done].
    rewrite Hp. apply (I i m Hi). by rewrite <- Ha, <- Hq.
  - rewrite (step_heap_new s e i m' W Hi Hi') in Hshown. simpl in Hshown.
    by destruct Hshown.
Qed.

Lemma shown_locked_run es : ∀ s,
  wf s → DepositForm.shown_locked s → DepositForm.shown_locked (run s es).
Proof.
  induction es as [|e es IH]; intros s W I; simpl; [done|].
  apply IH; [by apply wf_step|by apply shown_locked_step].
Qed.

End DepositPage.

(** X1. When a creation request settles, by a body or by a rejection, the
    loading overlay is not visible afterwards, whatever state it was in
    when the page was loaded and whatever other requests are still in
    flight: the [finally] block of [createDeposit] hides it. *)
Theorem createDeposit_leaves_overlay_hidden history f this r o :
  let s := run initial history in
  fetches s !! f = Some (AwaitCreate this) →
  LoadingOverlay.visible
    (LoadingOverlay.replay o (effects (step s (Settles f r)))) = false.
Proof.
  intros s Hf. pose proof (wf_history history) as W. fold s in W.
  destruct (settle_create_log s f this r W Hf) as [log ->].
  rewrite !replay_app. simpl. apply hide_not_visible.
Qed.

Lemma createDeposit_leaves_overlay_hidden_witness :
  let s := run initial [New; Submit 0; Submit 0] in
  fetches s !! 0 = Some (AwaitCreate 0) ∧
  fetches (step s (Settles 0 (Rejected "Failed to fetch"))) !! 1 = Some (AwaitCreate 0) ∧
  LoadingOverlay.visible (LoadingOverlay.replay (Some true) (effects s)) = true ∧
  LoadingOverlay.visible
    (LoadingOverlay.replay (Some true)
       (effects (step s (Settles 0 (Rejected "Failed to fetch"))))) = false.
Proof.
  intros s.
  assert (fetches s !! 0 = Some (AwaitCreate 0)) as H by (vm_compute; reflexivity).
  split_and!; [done|vm_compute; reflexivity|vm_compute; reflexivity|].
  apply (createDeposit_leaves_overlay_hidden [New; Submit 0; Submit 0] 0 0 _ _ H).
Defined.

(** X2. Once the form of an object has been put in the [payment-pending]
    state, no event takes it out of that state again: not a completed
    payment, not the timeout, not a failed request, not a new call of
    [startPaymentCheck]. *)
Theorem form_stays_locked history later this m :
  let s := run initial history in
  heap s !! this = Some m →
  payment_pending m = true →
  ∃ m', heap (run s later) !! this = Some m' ∧ payment_pending m' = true.
Proof.
  intros s Hm Hp. apply (run_locked later s this m); [apply wf_history|done..].
Qed.

Lemma form_stays_locked_witness :
  let s := run initial [New; Submit 0; Settles 0 (Resolved created_body)] in
  let later := replicate 20 (TimerFires 1) ++
               ((λ f, Settles f (Resolved pending_body)) <$> seq 1 20) in
  (∃ m, heap s !! 0 = Some m ∧ payment_pending m = true) ∧
  active (run s later) = ∅ ∧
  ∃ m', heap (run s later) !! 0 = Some m' ∧ payment_pending m' = true.
Proof.
  intros s later.
  assert (heap s !! 0 = Some (mkDepositManager 0 "bc1qexampleaddress"
                                "/media/qr/pay-1.png" true)) as H
    by (vm_compute; reflexivity).
  split_and!; [eauto|by vm_compute|].
  apply (form_stays_locked [New; Submit 0; Settles 0 (Resolved created_body)]
           later 0 _ H eq_refl).
Defined.

(** X3. Whatever events have happened, an object that shows a payment
    address or a QR code has its form in the [payment-pending] state: the
    two are only ever written by [handleSuccessfulDeposit], which locks the
    form in the same call. *)
Theorem shown_address_means_locked_form history this m :
  heap (run initial history) !! this = Some m →
  addressDisplay m ≠ "" ∨ qrCodeDisplay m ≠ "" →
  payment_pending m = true.
Proof.
  intros Hm Hshown.
  apply (shown_locked_run history initial wf_initial) with (i := this); [|done..].
  intros i m' H. by simpl in H.
Qed.

Lemma shown_address_means_locked_form_witness :
  let history := [New; Submit 0; Settles 0 (Resolved created_body)] in
  let m := mkDepositManager 0 "bc1qexampleaddress" "/media/qr/pay-1.png" true in
  heap (run initial history) !! 0 = Some m ∧
  (addressDisplay m ≠ "" ∨ qrCodeDisplay m ≠ "") ∧
  payment_pending m = true.
Proof.
  intros history m.
  assert (heap (run initial history) !! 0 = Some m) as H1 by (vm_compute; reflexivity).
  assert (addressDisplay m ≠ "" ∨ qrCodeDisplay m ≠ "") as H2 by (left; done).
  split_and!; [done..|].
  apply (shown_address_means_locked_form history 0 m H1 H2).
Defined.


(** X5. The error toast of a failed creation always has a text: the
    message of the rejection or of the body when there is one and it is not
    empty, and ['Failed to create deposit'] otherwise.  It is shown with
    type ['error'], after the error went to the console and before the
    overlay is hidden. *)
Theorem failed_creation_toast_has_text history f this r error :
  let s := run initial history in
  fetches s !! f = Some (AwaitCreate this) →
  creation_error r = Some error →
  ∃ text,
    effects (step s (Settles f r)) =
      effects s ++ [ConsoleError "Failed to create deposit:" error;
                    Toast text "error"; OverlayHide] ∧
    text ≠ "" ∧
    (error ≠ "" → text = error) ∧
    (error = "" → text = "Failed to create deposit") ∧
    (∀ data, r = Resolved data → message data = None ∨ message data = Some "" →
       text = "Failed to create deposit").
Proof.
  intros s Hf E. simpl. rewrite Hf, (createDeposit_failed _ _ _ _ E). simpl.
  exists (or_default (Some error) "Failed to create deposit").
  split_and!; [done|..].
  - by destruct error.
  - by destruct error.
  - by intros ->.
  - intros data -> Hm. simpl in E. destruct (success data); [done|].
    injection E as <-. by destruct Hm as [-> | ->].
Qed.

Lemma failed_creation_toast_has_text_witness :
  let s := run initial [New; Submit 0] in
  let r := Resolved (mkJson false "" (Some "") "" "" "") in
  fetches s !! 0 = Some (AwaitCreate 0) ∧
  creation_error r = Some "Failed to create deposit" ∧
  ∃ text, effects (step s (Settles 0 r)) =
            effects s ++ [ConsoleError "Failed to create deposit:" "Failed to create deposit";
                          Toast text "error"; OverlayHide] ∧ text ≠ "".
Proof.
  intros s r.
  assert (fetches s !! 0 = Some (AwaitCreate 0)) as H1 by (vm_compute; reflexivity).
  assert (creation_error r = Some "Failed to create deposit") as H2 by reflexivity.
  split_and!; [done..|].
  destruct (failed_creation_toast_has_text [New; Submit 0] 0 0 r _ H1 H2)
    as (text & E & Hne & _).
  exists text. by split.
Defined.

(** * The anti-forgery token *)

Section CookieString.
Import Stdlib.Strings.Ascii.
Implicit Types (c : ascii) (x w : list ascii) (p : list ascii * list ascii)
  (jar : list (list ascii * list ascii)).
Variable decode : list ascii → Completion (list ascii).

Lemma split_no_sep sep w : Forall (λ c, c ≠ sep) w → Cookie.split sep w = [w].
Proof.
  induction 1 as [|c w Hc _ IH]; simpl; [done|].
  rewrite decide_False by done. by rewrite IH.
Qed.

Lemma split_app_sep sep w x :
  Forall (λ c, c ≠ sep) w →
  Cookie.split sep (w ++ sep :: x) = w :: Cookie.split sep x.
Proof.
  induction 1 as [|c w Hc _ IH]; simpl.
  - by rewrite decide_True.
  - rewrite decide_False by done. by rewrite IH.
Qed.

Lemma split_cons_ne sep c x :
  c ≠ sep →
  Cookie.split sep (c :: x) =
    match Cookie.split sep x with
    | [] => [[c]]
    | w :: ws => (c :: w) :: ws
    end.
Proof. intros H. simpl. by rewrite decide_False. Qed.

Lemma trimStart_id x :
  (∀ c, head x = Some c → Cookie.is_white_space c = false) → Cookie.trimStart x = x.
Proof. destruct x as [|c x]; simpl; [done|]. intros H. by rewrite (H c). Qed.

Lemma trim_id x :
  (∀ c, head x = Some c → Cookie.is_white_space c = false) →
  (∀ c, last x = Some c → Cookie.is_white_space c = false) →
  Cookie.trim x = x.
Proof.
  intros Hh Hl. unfold Cookie.trim. rewrite (trimStart_id x Hh).
  rewrite trimStart_id; [apply reverse_involutive|].
  intros c. rewrite head_reverse. apply Hl.
Qed.

Lemma pair_text_no_semicolon p :
  Cookie.well_formed p → Forall (λ c, c ≠ ";"%char) (Cookie.pair_text p).
Proof.
  intros (Hn & Hv & _). unfold Cookie.pair_text.
  apply Forall_app. split.
  - eapply Forall_impl; [exact Hn|]. by intros c [? _].
  - simpl. by constructor.
Qed.

Lemma trim_pair_text p :
  Cookie.well_formed p → Cookie.trim (Cookie.pair_text p) = Cookie.pair_text p.
Proof.
  intros (_ & _ & Hh & Hl). destruct p as [n v]. unfold Cookie.pair_text in *.
  simpl in *. apply trim_id.
  - intros c. destruct n as [|c' n]; simpl; [by intros [= <-]|].
    intros [= <-]. by apply Hh.
  - intros c. rewrite last_app_cons.
    destruct v as [|c' v _] using rev_ind; [by intros [= <-]|].
    rewrite app_comm_cons, last_snoc.
    intros [= <-]. apply Hl. by rewrite last_snoc.
Qed.

(** The pieces between the semicolons: the first pair, and every other
    pair after a space. *)
Lemma split_cookie_string p jar :
  Forall Cookie.well_formed (p :: jar) →
  Cookie.split ";" (Cookie.cookie_string (p :: jar)) =
    Cookie.pair_text p :: ((λ q, " "%char :: Cookie.pair_text q) <$> jar).
Proof.
  revert p. induction jar as [|q jar IH]; intros p Hwf.
  - simpl. apply split_no_sep, pair_text_no_semicolon. by inversion Hwf.
  - apply Forall_cons in Hwf as [Hp Hwf].
    change (Cookie.cookie_string (p :: q :: jar))
      with (Cookie.pair_text p ++ ";"%char :: " "%char :: Cookie.cookie_string (q :: jar)).
    rewrite split_app_sep by by apply pair_text_no_semicolon.
    f_equal. rewrite split_cons_ne by done.
    rewrite (IH q Hwf). by rewrite fmap_cons.
Qed.

(** A pair names the token exactly when its name is [csrftoken]. *)
Lemma names_token p :
  Cookie.well_formed p →
  take (length (Cookie.str "csrftoken") + 1) (Cookie.pair_text p) = Cookie.str "csrftoken="
  ↔ p.1 = Cookie.str "csrftoken".
Proof.
  intros (Hn & _). destruct p as [n v]. unfold Cookie.pair_text. simpl in *.
  split.
  - do 10 (destruct n as [|? n];
           [simpl; intros [=]; subst; try done|
            apply Forall_cons in Hn as [[_ ?] Hn]; simpl;
            try (intros [=]; subst; done)]).
  - by intros ->.
Qed.

Lemma scan_pieces jar :
  Forall Cookie.well_formed jar →
  ∀ pieces,
    Forall2 (λ piece p, Cookie.trim piece = Cookie.pair_text p) pieces jar →
    Cookie.scan decode pieces =
      match Cookie.first_named (Cookie.str "csrftoken") jar with
      | Some value =>
          match decode value with
          | Normal v => Normal (Some v)
          | Throw error => Throw error
          end
      | None => Normal None
      end.
Proof.
  induction 1 as [|p jar Hp _ IH]; intros pieces Hpieces.
  - by inversion Hpieces.
  - inversion Hpieces as [|piece ? pieces' ? Htrim Hrest]; subst.
    cbn [Cookie.scan Cookie.first_named]. rewrite Htrim.
    pose proof (names_token p Hp) as Hname.
    destruct (decide (p.1 = Cookie.str "csrftoken")) as [Heq|Hne].
    + rewrite decide_True by by apply Hname.
      destruct p as [n v]. simpl in Heq. subst n. done.
    + rewrite decide_False by (intros H; by apply Hname in H).
      by apply IH.
Qed.

End CookieString.

Section CsrfToken.
Import Stdlib.Strings.Ascii.

(** X6. Read from the cookie string the browser builds from its cookies,
    [getCsrfToken] returns the decoded value of the first cookie whose
    name is exactly [csrftoken], and [null] when there is none: cookies
    with other names, also names that begin or end with [csrftoken], are
    passed over, and the space after each semicolon is not taken for part
    of a name.  An error of [decodeURIComponent] on that value is thrown
    on. *)
Theorem getCsrfToken_reads_first_csrftoken_cookie
    (decode : list ascii → Completion (list ascii)) jar :
  Forall Cookie.well_formed jar →
  Cookie.getCsrfToken decode (Cookie.cookie_string jar) =
    match Cookie.first_named (Cookie.str "csrftoken") jar with
    | Some value =>
        match decode value with
        | Normal v => Normal (Some v)
        | Throw error => Throw error
        end
    | None => Normal None
    end.
Proof.
  intros Hwf. destruct jar as [|p jar]; [done|].
  assert (Cookie.getCsrfToken decode (Cookie.cookie_string (p :: jar)) =
          Cookie.scan decode (Cookie.split ";" (Cookie.cookie_string (p :: jar)))) as ->.
  { destruct (Cookie.cookie_string (p :: jar)) eqn:E; [|done].
    destruct p as [n v], jar as [|q jar]; simpl in E;
      unfold Cookie.pair_text in E; simpl in E; by destruct n. }
  rewrite (split_cookie_string p jar Hwf).
  apply scan_pieces; [done|].
  apply Forall_cons in Hwf as [Hp Hwf]. constructor.
  - by apply trim_pair_text.
  - clear Hp p. induction Hwf as [|q jar Hq _ IH]; simpl; constructor; [|done].
    unfold Cookie.trim. simpl. by apply trim_pair_text.
Qed.

Lemma getCsrfToken_reads_first_csrftoken_cookie_witness :
  let jar := [(Cookie.str "sessionid", Cookie.str "abc");
              (Cookie.str "xcsrftoken", Cookie.str "no");
              (Cookie.str "csrftoken", Cookie.str "t0k3n");
              (Cookie.str "csrftoken", Cookie.str "second")] in
  Forall Cookie.well_formed jar ∧
  Cookie.cookie_string jar =
    Cookie.str "sessionid=abc; xcsrftoken=no; csrftoken=t0k3n; csrftoken=second" ∧
  Cookie.getCsrfToken (λ x, Normal x) (Cookie.cookie_string jar) =
    Normal (Some (Cookie.str "t0k3n")).
Proof.
  intros jar.
  assert (Forall Cookie.well_formed jar) as H.
  { repeat constructor; simpl; try done; intros c [= <-]; reflexivity. }
  split_and!; [done|reflexivity|].
  apply (getCsrfToken_reads_first_csrftoken_cookie (λ x, Normal x) jar H).
Defined.

End CsrfToken.

(** * Form validation *)

Section Validation.
Implicit Types (input : Forms.Control) (form : list Forms.Control).

Lemma validate_acc form : ∀ inputs isValid,
  foldl (λ '(inputs, isValid) input,
           if Forms.blank input then (inputs ++ [Forms.showError input], false)
           else (inputs ++ [input], isValid))
        (inputs, isValid) form =
  (inputs ++ ((λ input, if Forms.blank input then Forms.showError input else input)
                <$> form),
   isValid && forallb (λ input, negb (Forms.blank input)) form).
Proof.
  induction form as [|input form IH]; intros inputs isValid; simpl.
  - by rewrite app_nil_r, andb_true_r.
  - destruct (Forms.blank input); rewrite IH; simpl.
    + by rewrite <- app_assoc, andb_false_r.
    + by rewrite <- app_assoc.
Qed.

Lemma validate_eq form :
  Forms.validate form =
  ((λ input, if Forms.blank input then Forms.showError input else input) <$> form,
   forallb (λ input, negb (Forms.blank input)) form).
Proof. unfold Forms.validate. by rewrite validate_acc. Qed.

Lemma blank_showError input : Forms.blank (Forms.showError input) = Forms.blank input.
Proof. done. Qed.

Lemma showError_idemp input :
  Forms.showError (Forms.showError input) = Forms.showError input.
Proof.
  unfold Forms.showError. simpl.
  destruct (Forms.following input) as [|[[] text] rest]; simpl; done.
Qed.

End Validation.

(** X7. [validate] answers [true] exactly when no control of the form is
    required and blank, a value of white space only being blank.  It marks
    the blank required controls, each with class [error] and, right after
    it, one [error-message] element that carries the control's
    [data-error] text or ['This field is required']; it leaves every other
    control as it found it, an error shown by an earlier run included, and
    it changes no value. *)
Theorem validate_marks_blank_required_controls form :
  let '(form', isValid) := Forms.validate form in
  (isValid = true ↔
     ∀ input, input ∈ form →
       Forms.required input = true → Cookie.trim (Forms.value input) ≠ []) ∧
  length form' = length form ∧
  ∀ i input, form !! i = Some input →
    ∃ input', form' !! i = Some input' ∧
      Forms.value input' = Forms.value input ∧
      (Forms.error input = true → Forms.error input' = true) ∧
      if Forms.blank input then
        Forms.error input' = true ∧
        head (Forms.following input') =
          Some (Forms.mkElement true
                  (or_default (Forms.data_error input) "This field is required"))
      else input' = input.
Proof.
  rewrite validate_eq. split_and!.
  - rewrite forallb_forall. setoid_rewrite <- list_elem_of_In.
    split; intros H input Hin.
    + intros Hreq Hblank. specialize (H input Hin).
      unfold Forms.blank in H. rewrite Hreq, bool_decide_true in H by done. done.
    + unfold Forms.blank. destruct (Forms.required input) eqn:Hreq; [|done].
      simpl. rewrite bool_decide_false; [done|]. by apply H.
  - by rewrite length_fmap.
  - intros i input Hi. rewrite list_lookup_fmap, Hi. simpl.
    eexists. split; [done|].
    destruct (Forms.blank input); [|done]. simpl. split_and!; try done.
    by destruct (Forms.following input) as [|[[] text] rest].
Qed.

(** X8. [showError] on a control that already shows its error changes
    nothing: the message element is found and reused, no second one is
    inserted.  So validating a form again, with the values unchanged,
    gives the same page and the same answer. *)
Theorem validate_twice_is_validate_once form :
  (∀ input, Forms.showError (Forms.showError input) = Forms.showError input) ∧
  Forms.validate (Forms.validate form).1 = Forms.validate form.
Proof.
  split; [apply showError_idemp|].
  rewrite !validate_eq. simpl. f_equal.
  - rewrite <- list_fmap_compose. apply list_fmap_ext. intros i input _. simpl.
    destruct (Forms.blank input) eqn:E.
    + by rewrite blank_showError, E, showError_idemp.
    + by rewrite E.
  - induction form as [|input form IH]; csimpl; [done|].
    rewrite IH. by destruct (Forms.blank input) eqn:E; rewrite ?blank_showError, E.
Qed.

(** X9. [clearError] undoes [showError]: after the two, the control has
    no class [error] and the elements that follow it are those that
    [clearError] alone would have left; on a control that showed no error
    and is not followed by a message element, the two calls give the
    control back as it was. *)
Theorem clearError_undoes_showError input :
  Forms.clearError (Forms.showError input) = Forms.clearError input ∧
  (Forms.error input = false →
   (∀ e, head (Forms.following input) = Some e → Forms.error_message e = false) →
   Forms.clearError (Forms.showError input) = input).
Proof.
  split.
  - unfold Forms.clearError, Forms.showError. simpl.
    by destruct (Forms.following input) as [|[[] text] rest].
  - intros He Hh. destruct input as [req val err data fol]. simpl in *. subst err.
    unfold Forms.clearError, Forms.showError. simpl.
    destruct fol as [|[em text] rest]; [done|].
    specialize (Hh _ eq_refl). simpl in Hh. subst em. done.
Qed.

Lemma clearError_undoes_showError_witness :
  let input := Forms.mkControl true [] false None [Forms.mkElement false "hint"] in
  Forms.error input = false ∧
  (∀ e, head (Forms.following input) = Some e → Forms.error_message e = false) ∧
  Forms.clearError (Forms.showError input) = input.
Proof.
  intros input.
  assert (Forms.error input = false) as H1 by reflexivity.
  assert (∀ e, head (Forms.following input) = Some e → Forms.error_message e = false)
    as H2 by (by intros e [= <-]).
  split_and!; [done..|].
  apply (proj2 (clearError_undoes_showError input) H1 H2).
Defined.

(** * The navigation menu *)

Section Menu.
Variables (navbar btn : option bool) (links buttons : option string) (overflow : string).
Implicit Types (ui : Site.UIManager) (e : Site.UIEvent).

Lemma menu_inv_new :
  Site.menu_inv btn links buttons overflow
    (Site.UIManager_new navbar btn links buttons overflow).
Proof.
  unfold Site.menu_inv, Site.UIManager_new. simpl. split_and!; [|done|done|by left].
  by destruct btn as [[]|].
Qed.

Lemma menu_inv_toggle ui :
  Site.menu_inv btn links buttons overflow ui →
  is_Some (Site.mobileMenuBtn ui) ∨ Site.isMenuOpen ui = true →
  Site.menu_inv btn links buttons overflow (Site.toggleMobileMenu ui).
Proof.
  intros I Hbtn. pose proof I as (Hb & Hl & Hr & Hopen).
  unfold Site.toggleMobileMenu.
  destruct (Site.navLinks ui) as [dl|] eqn:El; [|exact I].
  destruct (Site.navButtons ui) as [db|] eqn:Er; [|exact I].
  unfold Site.menu_inv. simpl. split_and!.
  - rewrite Hb. destruct btn as [a|]; [|done]. simpl. f_equal.
    by destruct (Site.isMenuOpen ui), a.
  - split; [intros _; by apply Hl|eauto].
  - split; [intros _; by apply Hr|eauto].
  - destruct (Site.isMenuOpen ui) eqn:Eo; simpl.
    + by right.
    + split_and!; [done..|]. destruct Hbtn as [Hbtn|]; [|done].
      rewrite Hb in Hbtn. by destruct btn.
Qed.

Lemma menu_inv_dispatch ui e :
  Site.menu_inv btn links buttons overflow ui →
  Site.menu_inv btn links buttons overflow (Site.dispatch ui e).
Proof.
  intros I. destruct e as [scrollY|target]; simpl.
  - unfold Site.onScroll. by destruct (Site.navbar ui).
  - destruct (Site.mobileMenuBtn ui) as [a|] eqn:Eb; [|done].
    destruct (Site.in_mobileMenuBtn target).
    + apply menu_inv_toggle; [done|]. left. by rewrite Eb.
    + unfold Site.handleClickOutside.
      destruct (_ && _ && _ && _); [|done].
      apply menu_inv_toggle; [done|]. left. by rewrite Eb.
Qed.

Lemma menu_inv_run es : ∀ ui,
  Site.menu_inv btn links buttons overflow ui →
  Site.menu_inv btn links buttons overflow (foldl Site.dispatch ui es).
Proof.
  induction es as [|e es IH]; intros ui I; simpl; [done|].
  by apply IH, menu_inv_dispatch.
Qed.

End Menu.

(** X10. On any page, after any scrolls and clicks: while the menu is
    open both panels are displayed as [flex] and the body does not scroll
    ([overflow: hidden]); while it is closed the panels and the body are as
    the page had them, or, once the menu has been toggled, the panels are
    hidden ([none]) and the body overflow is reset to the empty string.
    The menu is open only on a page that has the button, and the class
    [active] of the button has flipped exactly when the menu is open. *)
Theorem menu_display_follows_isMenuOpen navbar btn links buttons overflow es :
  let ui := foldl Site.dispatch (Site.UIManager_new navbar btn links buttons overflow) es in
  Site.mobileMenuBtn ui = xorb (Site.isMenuOpen ui) <$> btn ∧
  if Site.isMenuOpen ui then
    Site.navLinks ui = Some "flex" ∧ Site.navButtons ui = Some "flex" ∧
    Site.body_overflow ui = "hidden" ∧ is_Some btn
  else
    (Site.navLinks ui = links ∧ Site.navButtons ui = buttons ∧
     Site.body_overflow ui = overflow) ∨
    (Site.navLinks ui = Some "none" ∧ Site.navButtons ui = Some "none" ∧
     Site.body_overflow ui = "").
Proof.
  intros ui.
  destruct (menu_inv_run btn links buttons overflow es _
              (menu_inv_new navbar btn links buttons overflow)) as (H1 & _ & _ & H2).
  by split.
Qed.

(** X11. On a page that lacks one of the two panels the menu never opens:
    whatever is clicked, [toggleMobileMenu] returns before it changes
    anything, so the flag stays false and the button, the panel that is
    there and the body overflow stay as they were. *)
Theorem menu_without_panels_never_opens navbar btn links buttons overflow es :
  links = None ∨ buttons = None →
  let ui := foldl Site.dispatch (Site.UIManager_new navbar btn links buttons overflow) es in
  Site.isMenuOpen ui = false ∧
  Site.mobileMenuBtn ui = btn ∧
  Site.navLinks ui = links ∧ Site.navButtons ui = buttons ∧
  Site.body_overflow ui = overflow.
Proof.
  intros Hnone ui.
  destruct (menu_inv_run btn links buttons overflow es _
              (menu_inv_new navbar btn links buttons overflow))
    as (Hb & Hl & Hr & Hopen).
  fold ui in Hb, Hl, Hr, Hopen.
  destruct (Site.isMenuOpen ui).
  - destruct Hopen as (El & Er & _). rewrite El in Hl. rewrite Er in Hr.
    destruct Hnone as [-> | ->];
      [destruct (proj1 Hl) as [? [=]]|destruct (proj1 Hr) as [? [=]]]; eauto.
  - split; [done|]. split; [rewrite Hb; by destruct btn as [[]|]|].
    destruct Hopen as [(? & ? & ?)|(El & Er & _)]; [done|].
    rewrite El in Hl. rewrite Er in Hr.
    destruct Hnone as [-> | ->];
      [destruct (proj1 Hl) as [? [=]]|destruct (proj1 Hr) as [? [=]]]; eauto.
Qed.

Lemma menu_without_panels_never_opens_witness :
  let click := Site.Click (Site.mkTarget true false false) in
  ((None : option string) = None ∨ Some "" = None) ∧
  Site.isMenuOpen
    (foldl Site.dispatch (Site.UIManager_new (Some false) (Some false) None (Some "") "")
       [click; click; click]) = false.
Proof.
  intros click.
  assert ((None : option string) = None ∨ Some "" = None) as H by (by left).
  split; [done|].
  apply (menu_without_panels_never_opens (Some false) (Some false) None (Some "") ""
           [click; click; click] H).
Defined.

(** X12. On a page with the button and both panels, after any events, a
    click decides the menu as follows: on the button it flips it; inside
    one of the panels it leaves it as it is; anywhere else it closes it.
    No click away from the button opens the menu. *)
Theorem click_decides_menu navbar a dl db overflow es target :
  let ui := foldl Site.dispatch
              (Site.UIManager_new navbar (Some a) (Some dl) (Some db) overflow) es in
  Site.isMenuOpen (Site.dispatch ui (Site.Click target)) =
    if Site.in_mobileMenuBtn target then negb (Site.isMenuOpen ui)
    else Site.isMenuOpen ui && (Site.in_navLinks target || Site.in_navButtons target).
Proof.
  intros ui.
  destruct (menu_inv_run (Some a) (Some dl) (Some db) overflow es _
              (menu_inv_new navbar (Some a) (Some dl) (Some db) overflow))
    as (Hb & Hl & Hr & _).
  fold ui in Hb, Hl, Hr.
  destruct (proj2 Hl) as [dl' El]; [eauto|].
  destruct (proj2 Hr) as [db' Er]; [eauto|].
  simpl in Hb. simpl. rewrite Hb.
  unfold Site.handleClickOutside, Site.toggleMobileMenu, Site.contains.
  rewrite Hb, El, Er.
  destruct (Site.in_mobileMenuBtn target); simpl; [done|].
  clearbody ui.
  destruct (Site.isMenuOpen ui) eqn:Eo, (Site.in_navLinks target),
    (Site.in_navButtons target); simpl; by rewrite ?Eo.
Qed.

(** * The theme *)

Section Theme.
Implicit Types (p : Site.ThemePage).

Lemma theme_inv_load stored data dark toggle :
  Site.theme_inv (Site.load stored data dark toggle).
Proof. by split_and!. Qed.

Lemma theme_inv_click p : Site.theme_inv p → Site.theme_inv (Site.click p).
Proof.
  intros I. unfold Site.click. destruct (Site.themeToggle p); [|done].
  unfold Site.theme_inv. simpl. split_and!; [|done..]. by case_bool_decide.
Qed.

Lemma theme_inv_clicks n p :
  Site.theme_inv p → Site.theme_inv (Nat.iter n Site.click p).
Proof. intros I. induction n as [|n IH]; simpl; [done|]. by apply theme_inv_click. Qed.

Lemma themeToggle_click p : Site.themeToggle (Site.click p) = Site.themeToggle p.
Proof. unfold Site.click. by destruct (Site.themeToggle p) eqn:E. Qed.

Lemma themeToggle_clicks n p :
  Site.themeToggle (Nat.iter n Site.click p) = Site.themeToggle p.
Proof.
  induction n as [|n IH]; [done|].
  change (Nat.iter (S n) Site.click p) with (Site.click (Nat.iter n Site.click p)).
  by rewrite themeToggle_click.
Qed.

End Theme.

(** X13. The theme survives a reload: after a page load and any number of
    clicks on the toggle, loading the page again, from what is then in
    [localStorage], gives the same theme, the same [data-theme] attribute
    and the same [dark-mode] class as before the reload.  Class
    [dark-mode] is on exactly when the theme is ['dark']. *)
Theorem theme_survives_reload stored data dark toggle n :
  let p := Nat.iter n Site.click (Site.load stored data dark toggle) in
  Site.load (Site.stored_theme p) (Site.data_theme p) (Site.dark_mode p)
    (Site.themeToggle p) = p ∧
  Site.data_theme p = Some (Site.theme p) ∧
  (Site.dark_mode p = true ↔ Site.theme p = "dark").
Proof.
  intros p.
  destruct (theme_inv_clicks n _ (theme_inv_load stored data dark toggle))
    as (Ht & Hd & Hm).
  fold p in Ht, Hd, Hm. split_and!; [|done|].
  - unfold Site.load, Site.applyTheme. simpl. rewrite <- Ht.
    destruct p as [st dt dm tg th]. simpl in *. by subst.
  - rewrite Hm. apply bool_decide_eq_true.
Qed.

(** X14. A click on the toggle makes the theme ['dark'] when it is
    ['light'] and ['light'] in every other case, and stores it: on a page
    with the toggle, after any clicks, one more click turns ['light'] into
    ['dark'] and anything else into ['light']; after at least one click the
    theme is one of the two and is the stored one, and two more clicks give
    the same page back.  A stored theme that is neither is taken over as it
    is by the load and becomes ['light'] on the first click. *)
Theorem toggle_alternates_light_and_dark stored data dark n :
  let p0 := Site.load stored data dark true in
  let q := Nat.iter n Site.click p0 in
  let p := Nat.iter (S n) Site.click p0 in
  (Site.theme q = "light" → Site.theme p = "dark") ∧
  (Site.theme q ≠ "light" → Site.theme p = "light") ∧
  (Site.theme p = "light" ∨ Site.theme p = "dark") ∧
  Site.stored_theme p = Some (Site.theme p) ∧
  Site.click (Site.click p) = p ∧
  Site.theme p0 = or_default stored "light" ∧
  (Site.theme p0 ≠ "light" → Site.theme (Site.click p0) = "light").
Proof.
  intros p0 q p.
  assert (Site.themeToggle q = true) as Htg
    by (subst q; by rewrite themeToggle_clicks).
  subst p. change (Nat.iter (S n) Site.click p0) with (Site.click q).
  assert (Site.theme p0 ≠ "light" → Site.theme (Site.click p0) = "light") as H0.
  { intros Hne. unfold Site.click. simpl. by rewrite bool_decide_false. }
  clearbody q. destruct q as [st dt dm tg th]. simpl in Htg. subst tg.
  split_and!; [| | | | |done|exact H0];
    unfold Site.click, Site.applyTheme; simpl;
    destruct (bool_decide (th = "light")) eqn:E; simpl; try done; eauto.
  - intros ->. by rewrite bool_decide_true in E.
  - intros Hne. by apply bool_decide_eq_true in E.
Qed.

Lemma toggle_alternates_light_and_dark_witness :
  let p0 := Site.load None None false true in
  Site.theme p0 = "light" ∧
  Site.theme (Site.click p0) = "dark" ∧
  Site.theme (Site.click (Site.click p0)) = "light".
Proof.
  intros p0.
  assert (Site.theme p0 = "light") as H0 by reflexivity.
  assert (Site.theme (Site.click p0) = "dark") as H1
    by apply (proj1 (toggle_alternates_light_and_dark None None false 0) H0).
  split_and!; [done..|].
  apply (proj1 (proj2 (toggle_alternates_light_and_dark None None false 1))).
  change (Site.theme (Site.click p0) ≠ "light"). by rewrite H1.
Defined.

(** * The estimate *)

Section EstimateDisplay.
Variable formatCrypto : string → string.
Implicit Types (f : Estimate.Form) (r : Estimate.Answer) (rs : list Estimate.Answer).

Lemma estimate_after rs : ∀ f,
  Estimate.estimateDisplay (foldl (Estimate.updateEstimate_resume formatCrypto) f rs) =
    match Estimate.last_success rs with
    | Some data => formatCrypto (Estimate.estimate data)
    | None => Estimate.estimateDisplay f
    end.
Proof.
  induction rs as [|r rs IH]; intros f; simpl; [done|].
  rewrite IH. destruct (Estimate.last_success rs); [done|].
  destruct r as [error|data]; simpl; [done|].
  by destruct (Estimate.success data).
Qed.

Lemma estimate_inputs_after rs : ∀ f,
  Estimate.amountInput (foldl (Estimate.updateEstimate_resume formatCrypto) f rs) =
    Estimate.amountInput f ∧
  Estimate.currencySelect (foldl (Estimate.updateEstimate_resume formatCrypto) f rs) =
    Estimate.currencySelect f.
Proof.
  induction rs as [|r rs IH]; intros f; simpl; [done|].
  destruct (IH (Estimate.updateEstimate_resume formatCrypto f r)) as [-> ->].
  destruct r as [error|data]; simpl; [done|].
  by destruct (Estimate.success data).
Qed.

Lemma estimate_log_after f r :
  ∃ entries,
    Estimate.log (Estimate.updateEstimate_resume formatCrypto f r) =
      Estimate.log f ++ entries ++ [OverlayHide].
Proof.
  destruct r as [error|data]; simpl.
  - by eexists [_; _].
  - destruct (Estimate.success data); simpl; [by exists []|by eexists [_; _]].
Qed.

End EstimateDisplay.

(** X15. Whatever estimate requests have settled, in whatever order their
    answers came in, the display shows the formatted estimate of the last
    answer that was a body saying [success], or what it showed before when
    there was none: a rejected request or a refusing body never clears or
    changes an estimate on display.  The two inputs are never written, and
    after every answer the loading overlay has been hidden last.  With an
    empty amount or currency no request is made and nothing is touched. *)
Theorem estimate_shows_last_successful_answer (formatCrypto : string → string) f rs :
  let f' := foldl (Estimate.updateEstimate_resume formatCrypto) f rs in
  Estimate.estimateDisplay f' =
    match Estimate.last_success rs with
    | Some data => formatCrypto (Estimate.estimate data)
    | None => Estimate.estimateDisplay f
    end ∧
  Estimate.amountInput f' = Estimate.amountInput f ∧
  Estimate.currencySelect f' = Estimate.currencySelect f ∧
  (∀ r, last (Estimate.log (Estimate.updateEstimate_resume formatCrypto f' r)) =
          Some OverlayHide) ∧
  (Estimate.amountInput f = "" ∨ Estimate.currencySelect f = "" →
   Estimate.updateEstimate_call f = (f, None)).
Proof.
  intros f'. split_and!.
  - apply estimate_after.
  - apply estimate_inputs_after.
  - apply estimate_inputs_after.
  - intros r. destruct (estimate_log_after formatCrypto f' r) as [entries ->].
    by rewrite app_assoc, last_snoc.
  - unfold Estimate.updateEstimate_call. intros [-> | ->]; [done|].
    by destruct (Estimate.amountInput f).
Qed.

Lemma estimate_shows_last_successful_answer_witness :
  let f := Estimate.mkForm "" "btc" "0.00100000" [] in
  (Estimate.amountInput f = "" ∨ Estimate.currencySelect f = "") ∧
  Estimate.updateEstimate_call f = (f, None) ∧
  Estimate.estimateDisplay
    (foldl (Estimate.updateEstimate_resume (λ x, x)) f
       [Estimate.Resolved (Estimate.mkBody true "0.5" None);
        Estimate.Rejected "Failed to fetch"]) = "0.5".
Proof.
  intros f.
  assert (Estimate.amountInput f = "" ∨ Estimate.currencySelect f = "") as H
    by (by left).
  pose proof (estimate_shows_last_successful_answer (λ x, x) f
                [Estimate.Resolved (Estimate.mkBody true "0.5" None);
                 Estimate.Rejected "Failed to fetch"]) as (H1 & _ & _ & _ & H5).
  split_and!; [done|by apply H5|exact H1].
Defined.

(** * Submitting a form *)

(** X16. [handleSubmit] makes no request for a form that does not
    validate, and does not touch the button or the overlay then.  For a
    form that validates it disables the button and labels it
    ['Processing...'], and once the request has settled, by a body or a
    rejection, whatever the caller's functions did and also when they
    threw, the last call was that of [loadingOverlay.hide] and the button,
    if the page still has it, is enabled and labelled as it was at the
    call. *)
Theorem handleSubmit_restores_button (Data : Type) p
    (options : Forms.Options Data) (r : Forms.Answer Data) :
  let '(p1, k) := Forms.handleSubmit_call p in
  match k with
  | None =>
      (Forms.validate (Forms.controls p)).2 = false ∧
      Forms.submitBtn p1 = Forms.submitBtn p ∧ Forms.log p1 = Forms.log p
  | Some originalText =>
      (Forms.validate (Forms.controls p)).2 = true ∧
      Forms.submitBtn p1 =
        (λ _, Forms.mkButton true "Processing...") <$> Forms.submitBtn p ∧
      Forms.log p1 = Forms.log p ++ [OverlayShow] ∧
      let '(p2, c) := Forms.handleSubmit_resume Data originalText options r p1 in
      last (Forms.log p2) = Some OverlayHide ∧
      ∀ b, Forms.submitBtn p = Some b →
        Forms.submitBtn p2 = None ∨
        Forms.submitBtn p2 = Some (Forms.mkButton false (Forms.label b))
  end.
Proof.
  unfold Forms.handleSubmit_call.
  destruct (Forms.validate (Forms.controls p)) as [controls' []]; simpl; [|done].
  split_and!; [done..|].
  unfold Forms.handleSubmit_resume.
  set (p1 := Forms.mkFormPage _ _ _).
  destruct (match r with
            | Forms.Rejected _ error => (p1, Throw error)
            | Forms.Resolved _ data =>
                Forms.call ((λ f, f data) <$> Forms.onSuccess Data options) p1
            end) as [q1 c1].
  destruct (match c1 with
            | Normal _ => (q1, Normal ())
            | Throw error =>
                Forms.call ((λ f, f error) <$> Forms.onError Data options)
                  (Forms.note (ConsoleError "Form submission error:" error) q1)
            end) as [q2 c2].
  unfold Forms.restore, Forms.note. simpl.
  destruct (Forms.submitBtn p) as [b|] eqn:Eb; simpl.
  - destruct (Forms.submitBtn q2) as [b2|] eqn:E2; simpl.
    + split; [by rewrite last_snoc|]. intros ? [= <-]. by right.
    + split; [by rewrite last_snoc|]. intros ? [= <-]. by left.
  - split; [by rewrite last_snoc|]. by intros ? [=].
Qed.

(** * The loading overlay *)

Section Overlay.
Implicit Types (o : LoadingOverlay.Overlay) (ops : list LoadingOverlay.Op).

Lemma overlay_exists ops : ∀ o,
  is_Some (foldl LoadingOverlay.apply o ops) ↔ is_Some o ∨ LoadingOverlay.Init ∈ ops.
Proof.
  induction ops as [|op ops IH]; intros o; simpl.
  - split; [by left|]. intros [H|H]; [done|by apply elem_of_nil in H].
  - rewrite IH, elem_of_cons. destruct op; simpl.
    + split; [intros _; right; by left|intros _; left; destruct o; simpl; eauto].
    + unfold LoadingOverlay.show. rewrite fmap_is_Some.
      split; (intros [H|H]; [by left|]); [by do 2 right|by destruct H as [[=]|H]; right].
    + unfold LoadingOverlay.hide. rewrite fmap_is_Some.
      split; (intros [H|H]; [by left|]); [by do 2 right|by destruct H as [[=]|H]; right].
Qed.

End Overlay.

(** X17. The overlay element exists exactly when the page had one or
    [init] has been called; [init] creates it hidden and never changes one
    that is there, so calling it again is harmless.  Calls of [show] and
    [hide] made before the element exists are lost: the overlay they asked
    for never appears.  Once the element exists, it is visible exactly
    after a [show] and hidden after a [hide]. *)
Theorem overlay_appears_only_after_init o ops :
  let o' := foldl LoadingOverlay.apply o ops in
  (is_Some o' ↔ is_Some o ∨ LoadingOverlay.Init ∈ ops) ∧
  LoadingOverlay.visible (LoadingOverlay.init o') = LoadingOverlay.visible o' ∧
  LoadingOverlay.init (LoadingOverlay.init o') = LoadingOverlay.init o' ∧
  (o = None → LoadingOverlay.Init ∉ ops →
   LoadingOverlay.visible (LoadingOverlay.init o') = false) ∧
  LoadingOverlay.visible (LoadingOverlay.show o') = bool_decide (is_Some o') ∧
  LoadingOverlay.visible (LoadingOverlay.hide o') = false.
Proof.
  intros o'. pose proof (overlay_exists ops o) as Hex. fold o' in Hex.
  split_and!.
  - done.
  - by destruct o' as [[]|].
  - by destruct o' as [[]|].
  - intros -> Hnot. destruct o' as [b|]; [|done].
    destruct (proj1 Hex) as [[? [=]]|]; [eauto|done].
  - destruct o' as [b|].
    + by rewrite bool_decide_true by eauto.
    + by rewrite bool_decide_false by (by intros [? [=]]).
  - by destruct o' as [[]|].
Qed.

Lemma overlay_appears_only_after_init_witness :
  let ops := [LoadingOverlay.Show; LoadingOverlay.Hide; LoadingOverlay.Show] in
  (None : LoadingOverlay.Overlay) = None ∧
  (LoadingOverlay.Init ∉ ops) ∧
  LoadingOverlay.visible
    (LoadingOverlay.init (foldl LoadingOverlay.apply None ops)) = false.
Proof.
  intros ops.
  assert (LoadingOverlay.Init ∉ ops) as H.
  { intros Hin. repeat (apply elem_of_cons in Hin as [[=]|Hin]).
    by apply elem_of_nil in Hin. }
  split_and!; [done..|].
  apply (overlay_appears_only_after_init None ops); done.
Defined.

(** * Polling sessions on any schedule *)

Section AnySchedule.
Implicit Types (s : Page) (this t c : nat) (e : Event) (es : list Event).

Lemma run_next_timer es : ∀ s, wf s → next_timer s ≤ next_timer (run s es).
Proof.
  induction es as [|e es IH]; intros s W; simpl; [done|].
  pose proof (step_next_timer s e W). pose proof (IH _ (wf_step s e W)). lia.
Qed.






End AnySchedule.




(** C5, as stated, fails: the timer of a session fires twice before the
    first response is back, and both responses are completed bodies.  The
    first one, on tick 1, calls [handlePaymentSuccess] and clears the
    timer; the second is processed all the same and calls
    [handlePaymentSuccess] again. *)
Lemma response_in_flight_is_processed_after_success :
  let s := run (session [New] 0 "pay-1") [TimerFires 1; TimerFires 1] in
  let s1 := step s (Settles 0 (Resolved completed_body)) in
  let s2 := step s1 (Settles 1 (Resolved completed_body)) in
  effects s1 = onSuccess ∧ timers s1 !! 1 = None ∧
  fetches s1 !! 1 = Some (AwaitStatus 0 "pay-1") ∧
  effects s2 = onSuccess ++ onSuccess ∧
  retryCount <$> heap s2 !! 0 = Some 2.
Proof. vm_compute. repeat split. Qed.

(** C5, amended. When a completed body arrives for a request of a session
    while the counter is below [MAX_RETRIES - 1], on any schedule, the
    success toast and the redirect are issued and no timeout toast is, no
    timer is armed any more, and the timer of the session is never armed
    again, whatever happens later: the session makes no further request.
    The other requests that are in flight stay in flight, and their
    responses are processed when they arrive.  When every request settles
    before the timer fires again there is none: with the first completed
    body on tick [k < MAX_RETRIES], the page stays as that tick leaves it
    whatever ticks would have followed and whichever timer is asked to
    fire. *)
Theorem completed_response_stops_the_timer history this paymentId :
  this < length (heap (run initial history)) →
  let t := session_timer history in
  let s := session history this paymentId in
  (∀ es f r m,
     let s1 := run s es in
     fetches s1 !! f = Some (AwaitStatus this paymentId) →
     heap s1 !! this = Some m →
     S (retryCount m) < MAX_RETRIES →
     Completed r →
     let s2 := step s1 (Settles f r) in
     effects s2 = effects s1 ++ onSuccess ∧
     active s2 = ∅ ∧
     (∀ later, t ∉ active (run s2 later)) ∧
     fetches s2 = delete f (fetches s1)) ∧
  (∀ pre r post,
     Forall (λ r, ¬ Completed r) pre →
     Completed r →
     S (length pre) < MAX_RETRIES →
     let s' := poll t s (pre ++ [r]) in
     effects s' = effects s ++ console_log pre ++ onSuccess ∧
     active s' = ∅ ∧
     poll t s (pre ++ r :: post) = s' ∧
     (∀ t', step s' (TimerFires t') = s')).
Proof.
  intros Hthis t s.
  destruct (session_polling history this paymentId Hthis) as (W & _ & _ & _).
  fold s in W. split.
  - intros es f r m s1 Hf Hm Hc Hr s2.
    pose proof (wf_run es s W) as W1. fold s1 in W1.
    apply Completed_completed in Hr as (data & -> & Hd).
    destruct (settle_status s1 f this paymentId data m W1 Hf Hm) as (_ & E & T).
    fold s2 in E, T. rewrite Hd in E, T. simpl in T.
    rewrite bool_decide_false, app_nil_r in E by lia.
    split_and!.
    + done.
    + unfold active. by rewrite T, dom_empty_L.
    + intros later. unfold active. apply not_elem_of_dom.
      apply retired_timer_stays_retired.
      * by apply wf_step.
      * pose proof (step_next_timer (run initial history)
                      (StartPaymentCheck this paymentId) (wf_history history)) as H0.
        assert (next_timer (run initial history) < next_timer s) as Hlt.
        { destruct (lookup_lt_is_Some_2 _ _ Hthis) as [m0 Hm0].
          subst s. unfold session. simpl. rewrite Hm0.
          rewrite (startPaymentCheck_eq _ _ _ _ Hm0). simpl. lia. }
        pose proof (run_next_timer es s W) as H1. fold s1 in H1.
        pose proof (step_next_timer s1 (Settles f (Resolved data)) W1) as H2.
        fold s2 in H2. unfold t, session_timer. lia.
      * by rewrite T, lookup_empty.
    + subst s2. simpl. rewrite Hf.
      by rewrite (paymentCheck_resolved this data (forget f s1) m Hm).
  - intros pre r post Hpre Hr Hk.
    apply (completed_before_MAX_RETRIES_succeeds history this paymentId pre r post
             Hthis Hpre Hr Hk).
Qed.

Lemma completed_response_stops_the_timer_witness :
  let es := [TimerFires 1; TimerFires 1] in
  let s1 := run (session [New] 0 "pay-1") es in
  let s2 := step s1 (Settles 0 (Resolved completed_body)) in
  0 < length (heap (run initial [New])) ∧
  fetches s1 !! 0 = Some (AwaitStatus 0 "pay-1") ∧
  heap s1 !! 0 = Some (mkDepositManager 0 "" "" false) ∧
  Completed (Resolved completed_body) ∧
  effects s2 = effects s1 ++ onSuccess ∧
  active s2 = ∅.
Proof.
  intros es s1 s2.
  assert (0 < length (heap (run initial [New]))) as H1 by (simpl; lia).
  assert (fetches s1 !! 0 = Some (AwaitStatus 0 "pay-1")) as H2
    by (vm_compute; reflexivity).
  assert (heap s1 !! 0 = Some (mkDepositManager 0 "" "" false)) as H3
    by (vm_compute; reflexivity).
  assert (Completed (Resolved completed_body)) as H4 by (by exists completed_body).
  assert (S (retryCount (mkDepositManager 0 "" "" false)) < MAX_RETRIES) as H5
    by (unfold MAX_RETRIES; simpl; lia).
  destruct (proj1 (completed_response_stops_the_timer [New] 0 "pay-1" H1)
              es 0 _ _ H2 H3 H5 H4) as (E & A & _).
  split_and!; done.
Defined.


